(** * uls_exporter: the collection cycle of the ULS lease exporter

    A shallow embedding of [main.go].  The program is a Prometheus collector:
    on every scrape [Collect] asks the license server for the active leases
    ([GetLeases]), decodes the JSON answer into [[]ULSLease] and sends the two
    gauges [uls_up] and [uls_leases].

    The code of the repository is short and leans on library packages
    (encoding/json, time, flag, os, github.com/google/uuid and the Prometheus
    client).  Each package is modelled in a module of its own, named after the
    package, as far as the program uses it; the functions of [main.go] follow
    in the section of the same name and keep their Go names.

    Conventions.
    - A Go [string] and a Go [[]byte] are a [string] of this file: a sequence
      of 8-bit characters.
    - A Go [int] is a [Z].
    - A Go slice is an [option (list A)]: [None] is the nil slice, [Some l] a
      slice with the elements [l].  Capacity is not modelled.
    - A Go [error] is an [option error]: [None] is the nil error.
    - [float64(len(leases))] is kept as the integer it denotes; the conversion
      is exact below 2^53 and a decoded slice is far shorter. *)

From Stdlib Require Import ZArith NArith List String Ascii Bool Lia DecimalString.
From stdpp Require Import gmap strings.
Import ListNotations.

Open Scope string_scope.

(** ** Bytes and characters *)

Definition byte_val (c : ascii) : N := N_of_ascii c.

Definition dquote : ascii := "034"%char.
Definition backslash : ascii := "\"%char.

Definition in_range (lo hi : N) (c : ascii) : bool :=
  (lo <=? byte_val c)%N && (byte_val c <=? hi)%N.

Definition is_digit (c : ascii) : bool := in_range 48 57 c.
Definition is_lower (c : ascii) : bool := in_range 97 122 c.
Definition is_upper (c : ascii) : bool := in_range 65 90 c.

Definition digit_val (c : ascii) : Z := Z.of_N (byte_val c) - 48.

Definition str1 (c : ascii) : string := String c EmptyString.

(** Replaces every apostrophe by a double quote: used to write JSON texts in
    examples. *)
Fixpoint dq (s : string) : string :=
  match s with
  | EmptyString => EmptyString
  | String c r => String (if Ascii.eqb c "'" then dquote else c) (dq r)
  end.

(** ** Errors *)

(** The error values that reach [GetLeases].  [errorString] is the value of
    [fmt.Errorf] and [errors.New]: its [Error()] text is the string it carries.
    [ExternalError] stands for the errors of the packages that talk to the
    outside (net/url, net/http, io). *)
Inductive error : Type :=
| errorString (msg : string)
| SyntaxError
| UnmarshalTypeError (Value : string) (GoType : string)
| ParseError (layout value : string)
| InvalidUUID
| ExternalError (msg : string).

Definition slice (A : Type) : Type := option (list A).

Definition len {A : Type} (s : slice A) : Z :=
  match s with
  | None => 0
  | Some l => Z.of_nat (List.length l)
  end.

(** ** Package fmt: the verbs that the program uses *)

Module fmt.

(** [%d]: the decimal form of an int, with a minus sign when negative. *)
Definition verb_d (n : Z) : string :=
  DecimalString.NilZero.string_of_int (Z.to_int n).

(** [fmt.Errorf("%d %s", n, s)]. *)
Definition Errorf_d_s (n : Z) (s : string) : error :=
  errorString (verb_d n ++ " " ++ s).

End fmt.

(** ** Package unicode/utf8 *)

Module utf8.

(** [DecodeRune] as far as the decoder of strings needs it: the number of
    bytes of the well-formed encoding that [s] starts with, [0] when [s]
    does not start with one (Go then reports [RuneError] with width 1). *)
Definition cont (c : ascii) : bool := in_range 128 191 c.

Definition seq_len (s : string) : nat :=
  match s with
  | String c0 (String c1 r1) =>
      if in_range 194 223 c0 then (if cont c1 then 2 else 0)
      else
        match r1 with
        | String c2 r2 =>
            let second3 :=
              if in_range 224 224 c0 then in_range 160 191 c1
              else if in_range 237 237 c0 then in_range 128 159 c1
              else if in_range 225 239 c0 then cont c1
              else false in
            if second3 then (if cont c2 then 3 else 0)
            else
              match r2 with
              | String c3 _ =>
                  let second4 :=
                    if in_range 240 240 c0 then in_range 144 191 c1
                    else if in_range 244 244 c0 then in_range 128 143 c1
                    else if in_range 241 243 c0 then cont c1
                    else false in
                  if second4 && cont c2 && cont c3 then 4 else 0
              | EmptyString => 0
              end
        | EmptyString => 0
        end
  | _ => 0
  end%nat.

Definition byte_of (n : N) : ascii := ascii_of_N n.

(** The encoding of U+FFFD, the replacement character. *)
Definition replacement : string :=
  String (byte_of 239) (String (byte_of 191) (String (byte_of 189) EmptyString)).

(** [EncodeRune]: surrogate halves and values above U+10FFFF are encoded as
    U+FFFD. *)
Definition EncodeRune (r : N) : string :=
  (if r <? 128 then str1 (byte_of r)
   else if r <? 2048 then
     String (byte_of (192 + r / 64)) (str1 (byte_of (128 + r mod 64)))
   else if (55296 <=? r) && (r <=? 57343) then replacement
   else if r <? 65536 then
     String (byte_of (224 + r / 4096))
       (String (byte_of (128 + (r / 64) mod 64)) (str1 (byte_of (128 + r mod 64))))
   else if r <=? 1114111 then
     String (byte_of (240 + r / 262144))
       (String (byte_of (128 + (r / 4096) mod 64))
          (String (byte_of (128 + (r / 64) mod 64)) (str1 (byte_of (128 + r mod 64)))))
   else replacement)%N.

End utf8.

(** ** Package encoding/json: the syntax of JSON texts *)

Module json.

(** A JSON value.  A number keeps its literal; a string is held decoded.
    A member of an object keeps, next to its value, the bytes of the value
    as they stand in the input ([d.data[start:d.off]] in the decoder): an
    [Unmarshaler] is handed these bytes. *)
#[local] Set Warnings "-register-all".
Inductive value : Type :=
| Null
| Bool (b : bool)
| Number (literal : string)
| Str (s : string)
| Array (elems : list value)
| Object (members : list (string * string * value)).
#[local] Set Warnings "register-all".

(** *** Numbers: the states of the scanner *)

Inductive num_state : Type :=
| NumStart | NumNeg | Num0 | Num1 | NumDot | NumDot0 | NumE | NumESign | NumE0
| NumBad.

Definition num_step (st : num_state) (c : ascii) : num_state :=
  let is_e := Ascii.eqb c "e" || Ascii.eqb c "E" in
  match st with
  | NumStart =>
      if Ascii.eqb c "-" then NumNeg
      else if Ascii.eqb c "0" then Num0
      else if is_digit c then Num1 else NumBad
  | NumNeg =>
      if Ascii.eqb c "0" then Num0
      else if is_digit c then Num1 else NumBad
  | Num0 =>
      if Ascii.eqb c "." then NumDot
      else if is_e then NumE else NumBad
  | Num1 =>
      if is_digit c then Num1
      else if Ascii.eqb c "." then NumDot
      else if is_e then NumE else NumBad
  | NumDot => if is_digit c then NumDot0 else NumBad
  | NumDot0 =>
      if is_digit c then NumDot0
      else if is_e then NumE else NumBad
  | NumE =>
      if Ascii.eqb c "+" || Ascii.eqb c "-" then NumESign
      else if is_digit c then NumE0 else NumBad
  | NumESign => if is_digit c then NumE0 else NumBad
  | NumE0 => if is_digit c then NumE0 else NumBad
  | NumBad => NumBad
  end.

Fixpoint num_run (st : num_state) (s : string) : num_state :=
  match s with
  | EmptyString => st
  | String c r => num_run (num_step st c) r
  end.

Definition valid_number (s : string) : bool :=
  match num_run NumStart s with
  | Num0 | Num1 | NumDot0 | NumE0 => true
  | _ => false
  end.

(** *** Strings: [unquote] on the bytes between the quotes *)

Definition hex_val (c : ascii) : option N :=
  if is_digit c then Some (byte_val c - 48)%N
  else if in_range 97 102 c then Some (byte_val c - 87)%N
  else if in_range 65 70 c then Some (byte_val c - 55)%N
  else None.

(** [getu4]: the value of four hexadecimal digits. *)
Definition getu4 (a b c d : ascii) : option N :=
  match hex_val a, hex_val b, hex_val c, hex_val d with
  | Some x, Some y, Some z, Some w => Some (((x * 16 + y) * 16 + z) * 16 + w)%N
  | _, _, _, _ => None
  end.

Definition is_surrogate (r : N) : bool := ((55296 <=? r) && (r <? 57344))%N.

(** [utf16.DecodeRune]: the code point of a surrogate pair, if it is one. *)
Definition utf16_pair (r1 r2 : N) : option N :=
  (if (55296 <=? r1) && (r1 <? 56320) && (56320 <=? r2) && (r2 <? 57344)
   then Some ((r1 - 55296) * 1024 + (r2 - 56320) + 65536)
   else None)%N.

(** The escape [\uXXXX] at the head of [s], when [s] starts with one. *)
Definition peek_u4 (s : string) : option N :=
  match s with
  | String b (String u (String h1 (String h2 (String h3 (String h4 _))))) =>
      if Ascii.eqb b backslash && Ascii.eqb u "u" then getu4 h1 h2 h3 h4 else None
  | _ => None
  end.

Definition simple_escape (c : ascii) : option ascii :=
  if Ascii.eqb c dquote || Ascii.eqb c backslash || Ascii.eqb c "/" then Some c
  else if Ascii.eqb c "b" then Some (ascii_of_N 8)
  else if Ascii.eqb c "f" then Some (ascii_of_N 12)
  else if Ascii.eqb c "n" then Some (ascii_of_N 10)
  else if Ascii.eqb c "r" then Some (ascii_of_N 13)
  else if Ascii.eqb c "t" then Some (ascii_of_N 9)
  else None.

(** The decoding of a string literal: escapes are replaced, a byte below
    0x20 or a bare quote is refused, ill-formed UTF-8 is coerced to U+FFFD
    byte by byte, and a lone surrogate escape becomes U+FFFD. *)
Fixpoint unquote (s : string) : option string :=
  match s with
  | EmptyString => Some EmptyString
  | String c s1 =>
      if Ascii.eqb c backslash then
        match s1 with
        | EmptyString => None
        | String e s2 =>
            if Ascii.eqb e "u" then
              match s2 with
              | String h1 (String h2 (String h3 (String h4 s6))) =>
                  match getu4 h1 h2 h3 h4 with
                  | None => None
                  | Some rr =>
                      if is_surrogate rr then
                        match peek_u4 s6 with
                        | Some rr1 =>
                            match utf16_pair rr rr1, s6 with
                            | Some r, String _ (String _ (String _ (String _ (String _ (String _ s12))))) =>
                                option_map (String.append (utf8.EncodeRune r)) (unquote s12)
                            | _, _ =>
                                option_map (String.append utf8.replacement) (unquote s6)
                            end
                        | None => option_map (String.append utf8.replacement) (unquote s6)
                        end
                      else option_map (String.append (utf8.EncodeRune rr)) (unquote s6)
                  end
              | _ => None
              end
            else
              match simple_escape e with
              | Some x => option_map (String x) (unquote s2)
              | None => None
              end
        end
      else if Ascii.eqb c dquote || (byte_val c <? 32)%N then None
      else if (byte_val c <? 128)%N then option_map (String c) (unquote s1)
      else
        match utf8.seq_len s, s1 with
        | 2%nat, String c1 s2 =>
            option_map (fun t => String c (String c1 t)) (unquote s2)
        | 3%nat, String c1 (String c2 s3) =>
            option_map (fun t => String c (String c1 (String c2 t))) (unquote s3)
        | 4%nat, String c1 (String c2 (String c3 s4)) =>
            option_map (fun t => String c (String c1 (String c2 (String c3 t)))) (unquote s4)
        | _, _ => option_map (String.append utf8.replacement) (unquote s1)
        end
  end.

(** *** Tokens *)

Inductive token : Type :=
| TBeginArray | TEndArray | TBeginObject | TEndObject | TColon | TComma
| TScalar (v : value).

(** A token with the offsets of its first byte and of the byte after its
    last one. *)
Definition ptoken : Type := (token * nat * nat)%type.

Inductive lex_mode : Type :=
| LSpace
| LWord (start : nat) (rev_text : string)
| LNum (start : nat) (rev_text : string)
| LStr (start : nat) (rev_body : string) (escaped : bool).

Definition is_space (c : ascii) : bool :=
  Ascii.eqb c " " || in_range 9 10 c || in_range 13 13 c.

Definition is_num_char (c : ascii) : bool :=
  is_digit c || Ascii.eqb c "-" || Ascii.eqb c "+" || Ascii.eqb c "."
  || Ascii.eqb c "e" || Ascii.eqb c "E".

(** The byte [c] at offset [pos], read between two tokens. *)
Definition lex_begin (pos : nat) (c : ascii) : option (lex_mode * list ptoken) :=
  if is_space c then Some (LSpace, [])
  else if Ascii.eqb c "[" then Some (LSpace, [(TBeginArray, pos, S pos)])
  else if Ascii.eqb c "]" then Some (LSpace, [(TEndArray, pos, S pos)])
  else if Ascii.eqb c "{" then Some (LSpace, [(TBeginObject, pos, S pos)])
  else if Ascii.eqb c "}" then Some (LSpace, [(TEndObject, pos, S pos)])
  else if Ascii.eqb c ":" then Some (LSpace, [(TColon, pos, S pos)])
  else if Ascii.eqb c "," then Some (LSpace, [(TComma, pos, S pos)])
  else if Ascii.eqb c dquote then Some (LStr pos EmptyString false, [])
  else if Ascii.eqb c "-" || is_digit c then Some (LNum pos (str1 c), [])
  else if is_lower c then Some (LWord pos (str1 c), [])
  else None.

Definition close_word (start pos : nat) (rev_text : string) : option ptoken :=
  let w := String.rev rev_text in
  if String.eqb w "null" then Some (TScalar Null, start, pos)
  else if String.eqb w "true" then Some (TScalar (Bool true), start, pos)
  else if String.eqb w "false" then Some (TScalar (Bool false), start, pos)
  else None.

Definition close_num (start pos : nat) (rev_text : string) : option ptoken :=
  let w := String.rev rev_text in
  if valid_number w then Some (TScalar (Number w), start, pos) else None.

(** One byte of input: the new mode and the tokens completed by the byte. *)
Definition lex_step (pos : nat) (m : lex_mode) (c : ascii)
  : option (lex_mode * list ptoken) :=
  match m with
  | LSpace => lex_begin pos c
  | LWord start w =>
      if is_lower c then Some (LWord start (String c w), [])
      else
        match close_word start pos w, lex_begin pos c with
        | Some t, Some (m', ts) => Some (m', t :: ts)
        | _, _ => None
        end
  | LNum start w =>
      if is_num_char c then Some (LNum start (String c w), [])
      else
        match close_num start pos w, lex_begin pos c with
        | Some t, Some (m', ts) => Some (m', t :: ts)
        | _, _ => None
        end
  | LStr start body true => Some (LStr start (String c body) false, [])
  | LStr start body false =>
      if Ascii.eqb c backslash then Some (LStr start (String c body) true, [])
      else if Ascii.eqb c dquote then
        match unquote (String.rev body) with
        | Some s => Some (LSpace, [(TScalar (Str s), start, S pos)])
        | None => None
        end
      else Some (LStr start (String c body) false, [])
  end.

Definition lex_end (pos : nat) (m : lex_mode) : option (list ptoken) :=
  match m with
  | LSpace => Some []
  | LWord start w => option_map (fun t => [t]) (close_word start pos w)
  | LNum start w => option_map (fun t => [t]) (close_num start pos w)
  | LStr _ _ _ => None
  end.

Fixpoint lex_from (pos : nat) (m : lex_mode) (s : string) : option (list ptoken) :=
  match s with
  | EmptyString => lex_end pos m
  | String c r =>
      match lex_step pos m c with
      | None => None
      | Some (m', ts) => option_map (app ts) (lex_from (S pos) m' r)
      end
  end.

Definition lex (data : string) : option (list ptoken) := lex_from 0 LSpace data.

(** *** The grammar: the states of the scanner over tokens *)

Inductive frame : Type :=
| FArray (start : nat) (rev_elems : list value)
| FObject (start : nat) (rev_members : list (string * string * value)) (key : string).

Inductive phase : Type :=
| BeginValue | BeginValueOrEmpty | BeginString | BeginStringOrEmpty
| EndObjectKey | EndValue | EndTop (v : value).

Definition maxNestingDepth : nat := 100 * 100.

Section Parse.
Variable data : string.

(** The value [v], read from offset [a] to offset [b], is complete. *)
Definition put (st : list frame) (v : value) (a b : nat) : list frame * phase :=
  match st with
  | [] => ([], EndTop v)
  | FArray s elems :: st' => (FArray s (v :: elems) :: st', EndValue)
  | FObject s ms k :: st' =>
      (FObject s ((k, substring a (b - a) data, v) :: ms) k :: st', EndValue)
  end.

Definition push (st : list frame) (f : frame) (ph : phase)
  : option (list frame * phase) :=
  if (List.length (f :: st) <=? maxNestingDepth)%nat then Some (f :: st, ph) else None.

Definition begin_value (st : list frame) (t : ptoken) : option (list frame * phase) :=
  match t with
  | (TScalar v, a, b) => Some (put st v a b)
  | (TBeginArray, a, _) => push st (FArray a []) BeginValueOrEmpty
  | (TBeginObject, a, _) => push st (FObject a [] EmptyString) BeginStringOrEmpty
  | _ => None
  end.

Definition end_array (st : list frame) (b : nat) : option (list frame * phase) :=
  match st with
  | FArray s elems :: st' => Some (put st' (Array (List.rev elems)) s b)
  | _ => None
  end.

Definition end_object (st : list frame) (b : nat) : option (list frame * phase) :=
  match st with
  | FObject s ms _ :: st' => Some (put st' (Object (List.rev ms)) s b)
  | _ => None
  end.

Definition begin_string (st : list frame) (t : ptoken) : option (list frame * phase) :=
  match t, st with
  | (TScalar (Str k), _, _), FObject s ms _ :: st' => Some (FObject s ms k :: st', EndObjectKey)
  | _, _ => None
  end.

Definition parse_step (st : list frame) (ph : phase) (t : ptoken)
  : option (list frame * phase) :=
  match ph with
  | BeginValue => begin_value st t
  | BeginValueOrEmpty =>
      match t with
      | (TEndArray, _, b) => end_array st b
      | _ => begin_value st t
      end
  | BeginString => begin_string st t
  | BeginStringOrEmpty =>
      match t with
      | (TEndObject, _, b) => end_object st b
      | _ => begin_string st t
      end
  | EndObjectKey =>
      match t with
      | (TColon, _, _) => Some (st, BeginValue)
      | _ => None
      end
  | EndValue =>
      match t, st with
      | (TComma, _, _), FArray _ _ :: _ => Some (st, BeginValue)
      | (TComma, _, _), FObject _ _ _ :: _ => Some (st, BeginString)
      | (TEndArray, _, b), _ => end_array st b
      | (TEndObject, _, b), _ => end_object st b
      | _, _ => None
      end
  | EndTop _ => None
  end.

Fixpoint parse_from (st : list frame) (ph : phase) (ts : list ptoken) : option value :=
  match ts with
  | [] => match ph with EndTop v => Some v | _ => None end
  | t :: ts' =>
      match parse_step st ph t with
      | None => None
      | Some (st', ph') => parse_from st' ph' ts'
      end
  end.
End Parse.

(** The value that a JSON text denotes; [None] for a text that [checkValid]
    refuses with a [SyntaxError]. *)
Definition scan (data : string) : option value :=
  match lex data with
  | None => None
  | Some ts => parse_from data [] BeginValue ts
  end.

End json.

(** ** Package time: [Parse] *)

Module time.

(** A time instant as [Parse] sees it: the civil date and clock reading that
    were read, and the offset of the zone in seconds east of UTC. *)
Record Time : Type := mkTime {
  Year : Z; Month : Z; Day : Z;
  Hour : Z; Minute : Z; Second : Z; Nanosecond : Z;
  ZoneOffset : Z
}.

(** The zero [Time]: January 1, year 1, 00:00:00 UTC. *)
Definition zero : Time := mkTime 1 1 1 0 0 0 0 0.

(** The layout elements that occur in the layout of this program. *)
Inductive std : Type :=
| stdLongYear            (* 2006 *)
| stdZeroMonth           (* 01 *)
| stdZeroDay             (* 02 *)
| stdHour                (* 15 *)
| stdZeroMinute          (* 04 *)
| stdZeroSecond          (* 05 *)
| stdFracSecond9         (* .999..., trailing zeros dropped *)
| stdISO8601ColonTZ.     (* Z07:00 *)

Fixpoint drop (n : nat) (s : string) : string :=
  match n, s with
  | O, _ => s
  | S n', String _ r => drop n' r
  | S _, EmptyString => EmptyString
  end.

Fixpoint count_nines (s : string) : nat :=
  match s with
  | String c r => if Ascii.eqb c "9" then S (count_nines r) else O
  | EmptyString => O
  end.

Definition starts_digit (s : string) : bool :=
  match s with
  | String c _ => is_digit c
  | EmptyString => false
  end.

(** The element that [layout] starts with, and its width.  Of the elements
    that [nextStdChunk] knows, only those of [std] are recognised; every
    other byte counts as literal text. *)
Definition std_at (layout : string) : option (std * nat) :=
  if String.prefix "2006" layout then Some (stdLongYear, 4%nat)
  else if String.prefix "01" layout then Some (stdZeroMonth, 2%nat)
  else if String.prefix "02" layout then Some (stdZeroDay, 2%nat)
  else if String.prefix "04" layout then Some (stdZeroMinute, 2%nat)
  else if String.prefix "05" layout then Some (stdZeroSecond, 2%nat)
  else if String.prefix "15" layout then Some (stdHour, 2%nat)
  else if String.prefix "Z07:00" layout then Some (stdISO8601ColonTZ, 6%nat)
  else if String.prefix ".9" layout then
    let n := count_nines (drop 1 layout) in
    if starts_digit (drop (S n) layout) then None else Some (stdFracSecond9, S n)
  else None.

(** The layout cut into its elements, each with the literal text before it,
    and the literal text after the last element.  [skip] bytes at the head
    belong to the element found last. *)
Fixpoint chunks (skip : nat) (rev_lit : string) (layout : string)
  : list (string * std) * string :=
  match layout with
  | EmptyString => ([], String.rev rev_lit)
  | String c r =>
      match skip with
      | S k => chunks k rev_lit r
      | O =>
          match std_at layout with
          | Some (sd, n) =>
              let '(cs, tail) := chunks (Nat.pred n) EmptyString r in
              ((String.rev rev_lit, sd) :: cs, tail)
          | None => chunks O (String c rev_lit) r
          end
      end
  end.

(** [getnum]: one or two digits; exactly two when [fixed]. *)
Definition getnum (s : string) (fixed : bool) : option (Z * string) :=
  match s with
  | String a r =>
      if is_digit a then
        match r with
        | String b r' =>
            if is_digit b then Some (digit_val a * 10 + digit_val b, r')%Z
            else if fixed then None else Some (digit_val a, r)
        | EmptyString => if fixed then None else Some (digit_val a, r)
        end
      else None
  | EmptyString => None
  end.

(** The literal text [prefix] at the head of [value] ([skip], for a prefix
    without blanks). *)
Fixpoint skip_prefix (value prefix : string) : option string :=
  match prefix, value with
  | EmptyString, _ => Some value
  | String p ps, String v vs => if Ascii.eqb p v then skip_prefix vs ps else None
  | String _ _, EmptyString => None
  end.

Definition commaOrPeriod (c : ascii) : bool := Ascii.eqb c "." || Ascii.eqb c ",".

(** The digits at the head of [s], and the rest. *)
Fixpoint span_digits (s : string) : string * string :=
  match s with
  | String c r =>
      if is_digit c then let '(d, t) := span_digits r in (String c d, t)
      else (EmptyString, s)
  | EmptyString => (EmptyString, EmptyString)
  end.

Fixpoint digits_val (acc : Z) (s : string) : Z :=
  match s with
  | String c r => digits_val (acc * 10 + digit_val c)%Z r
  | EmptyString => acc
  end.

Fixpoint take (n : nat) (s : string) : string :=
  match n, s with
  | S n', String c r => String c (take n' r)
  | _, _ => EmptyString
  end.

(** [parseNanoseconds] on the digits after the separator: at most nine
    digits count, scaled to nanoseconds. *)
Definition parseNanoseconds (digits : string) : Z :=
  let d := take 9 digits in
  (digits_val 0 d * 10 ^ Z.of_nat (9 - String.length d))%Z.

(** A fraction of a second at the head of [value], if there is one. *)
Definition frac_second (value : string) : option (Z * string) :=
  match value with
  | String sep r =>
      if commaOrPeriod sep && starts_digit r then
        let '(d, t) := span_digits r in Some (parseNanoseconds d, t)
      else None
  | EmptyString => None
  end.

Definition isLeap (year : Z) : bool :=
  ((year mod 4 =? 0) && (negb (year mod 100 =? 0) || (year mod 400 =? 0)))%Z.

Definition daysIn (month year : Z) : Z :=
  (if month =? 2 then (if isLeap year then 29 else 28)
   else if (month =? 4) || (month =? 6) || (month =? 9) || (month =? 11) then 30
   else 31)%Z.

(** One element of the layout read from [value]: the updated reading and
    the rest of the value.  [None] covers both a malformed and an
    out-of-range element. *)
Definition parse_std (sd : std) (next_is_frac : bool) (t : Time) (value : string)
  : option (Time * string) :=
  match sd with
  | stdLongYear =>
      if (String.length value <? 4)%nat then None
      else
        let p := take 4 value in
        match span_digits p with
        | (d, EmptyString) =>
            Some (mkTime (digits_val 0 d) (Month t) (Day t) (Hour t) (Minute t)
                    (Second t) (Nanosecond t) (ZoneOffset t), drop 4 value)
        | _ => None
        end
  | stdZeroMonth =>
      match getnum value true with
      | Some (m, v) =>
          if ((m <=? 0) || (12 <? m))%Z then None
          else Some (mkTime (Year t) m (Day t) (Hour t) (Minute t) (Second t)
                       (Nanosecond t) (ZoneOffset t), v)
      | None => None
      end
  | stdZeroDay =>
      match getnum value true with
      | Some (d, v) =>
          Some (mkTime (Year t) (Month t) d (Hour t) (Minute t) (Second t)
                  (Nanosecond t) (ZoneOffset t), v)
      | None => None
      end
  | stdHour =>
      match getnum value false with
      | Some (h, v) =>
          if (24 <=? h)%Z then None
          else Some (mkTime (Year t) (Month t) (Day t) h (Minute t) (Second t)
                       (Nanosecond t) (ZoneOffset t), v)
      | None => None
      end
  | stdZeroMinute =>
      match getnum value true with
      | Some (m, v) =>
          if (60 <=? m)%Z then None
          else Some (mkTime (Year t) (Month t) (Day t) (Hour t) m (Second t)
                       (Nanosecond t) (ZoneOffset t), v)
      | None => None
      end
  | stdZeroSecond =>
      match getnum value true with
      | Some (s, v) =>
          if (60 <=? s)%Z then None
          else
            let t' := mkTime (Year t) (Month t) (Day t) (Hour t) (Minute t) s
                        (Nanosecond t) (ZoneOffset t) in
            if next_is_frac then Some (t', v)
            else
              (* a fraction in the value that the layout does not ask for *)
              match frac_second v with
              | Some (ns, v') =>
                  Some (mkTime (Year t) (Month t) (Day t) (Hour t) (Minute t) s
                          ns (ZoneOffset t), v')
              | None => Some (t', v)
              end
      | None => None
      end
  | stdFracSecond9 =>
      match frac_second value with
      | Some (ns, v) =>
          Some (mkTime (Year t) (Month t) (Day t) (Hour t) (Minute t) (Second t)
                  ns (ZoneOffset t), v)
      | None => Some (t, value)          (* fractional second omitted *)
      end
  | stdISO8601ColonTZ =>
      match value with
      | String s0 (String h1 (String h2 (String c (String m1 (String m2 v))))) =>
          if Ascii.eqb s0 "Z" then
            Some (mkTime (Year t) (Month t) (Day t) (Hour t) (Minute t) (Second t)
                    (Nanosecond t) 0, drop 1 value)
          else if negb (Ascii.eqb c ":") then None
          else
            match getnum (String h1 (str1 h2)) true, getnum (String m1 (str1 m2)) true with
            | Some (hr, _), Some (mm, _) =>
                if ((24 <? hr) || (60 <? mm))%Z then None
                else
                  let off := ((hr * 60 + mm) * 60)%Z in
                  if Ascii.eqb s0 "+" then
                    Some (mkTime (Year t) (Month t) (Day t) (Hour t) (Minute t)
                            (Second t) (Nanosecond t) off, v)
                  else if Ascii.eqb s0 "-" then
                    Some (mkTime (Year t) (Month t) (Day t) (Hour t) (Minute t)
                            (Second t) (Nanosecond t) (- off), v)
                  else None
            | _, _ => None
            end
      | String s0 v =>
          if Ascii.eqb s0 "Z" then
            Some (mkTime (Year t) (Month t) (Day t) (Hour t) (Minute t) (Second t)
                    (Nanosecond t) 0, v)
          else None
      | EmptyString => None
      end
  end.

Definition is_frac (c : option (string * std)) : bool :=
  match c with
  | Some (EmptyString, stdFracSecond9) => true
  | _ => false
  end.

Fixpoint parse_chunks (cs : list (string * std)) (tail : string) (t : Time)
  (value : string) : option Time :=
  match cs with
  | [] =>
      match skip_prefix value tail with
      | Some EmptyString => Some t
      | _ => None                          (* a mismatch, or extra text *)
      end
  | (lit, sd) :: cs' =>
      match skip_prefix value lit with
      | None => None
      | Some v =>
          match parse_std sd (is_frac (List.head cs')) t v with
          | None => None
          | Some (t', v') => parse_chunks cs' tail t' v'
          end
      end
  end.

(** [time.Parse(layout, value)], for a layout made of the elements of
    [std]: the time read, or a [ParseError]. *)
Definition Parse (layout value : string) : Time + error :=
  let '(cs, tail) := chunks 0 EmptyString layout in
  match parse_chunks cs tail (mkTime 0 1 1 0 0 0 0 0) value with
  | Some t =>
      if ((Day t <? 1) || (daysIn (Month t) (Year t) <? Day t))%Z
      then inr (ParseError layout value)
      else inl t
  | None => inr (ParseError layout value)
  end.

End time.

(** ** Package github.com/google/uuid *)

Module uuid.

(** A UUID: sixteen bytes. *)
Definition UUID : Type := list N.

Definition Nil : UUID := List.repeat 0%N 16.

(** [xtob]: the byte written by two hexadecimal digits. *)
Definition xtob (a b : ascii) : option N :=
  match json.hex_val a, json.hex_val b with
  | Some x, Some y => Some (x * 16 + y)%N
  | _, _ => None
  end.

Fixpoint hex_bytes (s : string) : option (list N) :=
  match s with
  | EmptyString => Some []
  | String a (String b r) =>
      match xtob a b, hex_bytes r with
      | Some x, Some l => Some (x :: l)
      | _, _ => None
      end
  | String _ EmptyString => None
  end.

Definition to_upper (c : ascii) : ascii :=
  if is_lower c then ascii_of_N (byte_val c - 32) else c.

Fixpoint upper (s : string) : string :=
  match s with
  | EmptyString => EmptyString
  | String c r => String (to_upper c) (upper r)
  end.

(** The form xxxxxxxx-xxxx-xxxx-xxxx-xxxxxxxxxxxx at the head of [b]. *)
Definition parse36 (b : string) : option UUID :=
  let dash i := String.eqb (substring i 1 b) "-" in
  if dash 8%nat && dash 13%nat && dash 18%nat && dash 23%nat then
    hex_bytes (substring 0 8 b ++ substring 9 4 b ++ substring 14 4 b
               ++ substring 19 4 b ++ substring 24 12 b)
  else None.

(** [ParseBytes]: the four lengths that the package accepts. *)
Definition ParseBytes (b : string) : UUID + error :=
  let n := String.length b in
  let result o := match o with Some u => inl u | None => inr InvalidUUID end in
  if (n =? 36)%nat then result (parse36 b)
  else if (n =? 45)%nat then
    if String.eqb (upper (substring 0 9 b)) "URN:UUID:"
    then result (parse36 (substring 9 36 b)) else inr InvalidUUID
  else if (n =? 38)%nat then result (parse36 (substring 1 37 b))
  else if (n =? 32)%nat then result (hex_bytes b)
  else inr InvalidUUID.

End uuid.

(** ** Package encoding/json: decoding into Go values *)

Module decode.
Import json.

(** The outcome of storing one JSON value into a Go value: the Go value as
    it stands afterwards (also when the decoder gives up), the error that
    makes the decoder return at once, and [d.savedError], the first type
    mismatch met so far, which does not stop the decoder. *)
Record result (A : Type) : Type := mkResult {
  res_val : A;
  res_err : option error;
  res_saved : option error
}.
Arguments mkResult {A} _ _ _.
Arguments res_val {A} _.
Arguments res_err {A} _.
Arguments res_saved {A} _.

Definition map_result {A B : Type} (f : A -> B) (r : result A) : result B :=
  mkResult (f (res_val r)) (res_err r) (res_saved r).

(** [d.saveError]: only the first error is kept. *)
Definition saveError (saved : option error) (e : error) : option error :=
  match saved with
  | None => Some e
  | Some _ => saved
  end.

Definition kind_name (v : value) : string :=
  match v with
  | Null => "null"
  | Bool _ => "bool"
  | Number _ => "number"
  | Str _ => "string"
  | Array _ => "array"
  | Object _ => "object"
  end.

(** A JSON value of a kind that the Go type does not take: the Go value is
    left alone, the mismatch is saved and decoding goes on. *)
Definition type_error {A : Type} (v : value) (GoType : string) (cur : A)
  (saved : option error) : result A :=
  mkResult cur None (saveError saved (UnmarshalTypeError (kind_name v) GoType)).

(** *** Scalars *)

Definition store_string (v : value) (cur : string) (saved : option error)
  : result string :=
  match v with
  | Null => mkResult cur None saved
  | Str s => mkResult s None saved
  | _ => type_error v "string" cur saved
  end.

Definition store_bool (v : value) (cur : bool) (saved : option error)
  : result bool :=
  match v with
  | Null => mkResult cur None saved
  | Bool b => mkResult b None saved
  | _ => type_error v "bool" cur saved
  end.

(** [strconv.ParseInt(s, 10, 64)] on the literal of a JSON number. *)
Definition ParseInt (s : string) : option Z :=
  let '(neg, body) :=
    match s with
    | String c r => if Ascii.eqb c "-" then (true, r) else (false, s)
    | EmptyString => (false, s)
    end in
  match time.span_digits body with
  | (String d ds, EmptyString) =>
      let n := time.digits_val 0 (String d ds) in
      let n := if neg then (- n)%Z else n in
      if ((- 2 ^ 63 <=? n) && (n <=? 2 ^ 63 - 1))%Z then Some n else None
  | _ => None
  end.

Definition store_int (v : value) (cur : Z) (saved : option error) : result Z :=
  match v with
  | Null => mkResult cur None saved
  | Number lit =>
      match ParseInt lit with
      | Some n => mkResult n None saved
      | None =>
          mkResult cur None (saveError saved (UnmarshalTypeError ("number " ++ lit) "int"))
      end
  | _ => type_error v "int" cur saved
  end.

(** A type with [UnmarshalText] on its pointer: a JSON string is handed to
    the method, whose error stops the decoder; null is ignored. *)
Definition store_text {A : Type} (GoType : string) (UnmarshalText : string -> A + error)
  (v : value) (cur : A) (saved : option error) : result A :=
  match v with
  | Null => mkResult cur None saved
  | Str s =>
      match UnmarshalText s with
      | inl x => mkResult x None saved
      | inr e => mkResult cur (Some e) saved
      end
  | _ => type_error v GoType cur saved
  end.

(** *** Slices *)

(** The loop of [d.array] over the elements: element [i] of the JSON array
    is stored into element [i] of the slice, or into a fresh zero value
    when the slice is shorter; the slice is cut to the number of elements
    read.  When an element stops the decoder, the rest of the slice stays. *)
Fixpoint array_loop {A : Type} (store : value -> A -> option error -> result A)
  (zero : A) (elems : list value) (cur : list A) (saved : option error)
  : result (list A) :=
  match elems with
  | [] => mkResult [] None saved
  | j :: elems' =>
      let '(x, rest) := match cur with c :: cs => (c, cs) | [] => (zero, []) end in
      let r := store j x saved in
      match res_err r with
      | Some e => mkResult (res_val r :: rest) (Some e) (res_saved r)
      | None =>
          map_result (cons (res_val r)) (array_loop store zero elems' rest (res_saved r))
      end
  end.

Definition store_slice {A : Type} (GoType : string)
  (store : value -> A -> option error -> result A) (zero : A)
  (v : value) (cur : slice A) (saved : option error) : result (slice A) :=
  match v with
  | Null => mkResult None None saved
  | Array elems =>
      map_result Some
        (array_loop store zero elems (match cur with Some l => l | None => [] end) saved)
  | _ => type_error v GoType cur saved
  end.

(** *** Structs *)

Definition fold_byte (c : ascii) : ascii := uuid.to_upper c.

(** [foldName] as far as it decides a match with a field name written in
    ASCII: letters are put in upper case, and the two runes outside ASCII
    whose case orbit holds a letter (U+212A KELVIN SIGN and U+017F LATIN
    SMALL LETTER LONG S) become K and S; other bytes stay. *)
Fixpoint foldName (s : string) : string :=
  match s with
  | EmptyString => EmptyString
  | String a r =>
      match r with
      | String b r2 =>
          if in_range 197 197 a && in_range 191 191 b then String "S" (foldName r2)
          else
            match r2 with
            | String c r3 =>
                if in_range 226 226 a && in_range 132 132 b && in_range 170 170 c
                then String "K" (foldName r3)
                else String (fold_byte a) (foldName r)
            | EmptyString => String (fold_byte a) (foldName r)
            end
      | EmptyString => str1 (fold_byte a)
      end
  end.

(** The field that a key of the JSON object names: the field with exactly
    this name, else the field whose folded name is the folded key. *)
Definition lookup_field {F : Type} (fields : list (string * F)) (key : string)
  : option F :=
  match List.find (fun f => String.eqb (fst f) key) fields with
  | Some f => Some (snd f)
  | None =>
      option_map snd
        (List.find (fun f => String.eqb (foldName (fst f)) (foldName key)) fields)
  end.

(** The loop of [d.object] over the members, for a struct: the value of a
    member that names a field is stored into the field, other members are
    skipped. *)
Fixpoint object_loop {S F : Type} (fields : list (string * F))
  (store : F -> string -> value -> S -> option error -> result S)
  (members : list (string * string * value)) (cur : S) (saved : option error)
  : result S :=
  match members with
  | [] => mkResult cur None saved
  | (key, raw, v) :: members' =>
      match lookup_field fields key with
      | None => object_loop fields store members' cur saved
      | Some f =>
          let r := store f raw v cur saved in
          match res_err r with
          | Some _ => r
          | None => object_loop fields store members' (res_val r) (res_saved r)
          end
      end
  end.

Definition store_struct {S F : Type} (GoType : string) (fields : list (string * F))
  (store : F -> string -> value -> S -> option error -> result S)
  (v : value) (cur : S) (saved : option error) : result S :=
  match v with
  | Null => mkResult cur None saved
  | Object members => object_loop fields store members cur saved
  | _ => type_error v GoType cur saved
  end.

(** *** [json.Unmarshal] *)

(** [json.Unmarshal(data, &x)] for a Go value [x] whose type stores JSON
    values with [store]: the text is checked as a whole first; then the
    value is stored, and the error is the one that stopped the decoder,
    else the saved one.  The Go value is returned as it stands afterwards. *)
Definition Unmarshal {A : Type} (store : value -> A -> option error -> result A)
  (data : string) (x : A) : A * option error :=
  match scan data with
  | None => (x, Some SyntaxError)
  | Some v =>
      let r := store v x None in
      (res_val r, match res_err r with Some e => Some e | None => res_saved r end)
  end.

End decode.

(** ** Package os: the environment *)

Module os.

(** [os.LookupEnv]: the value of the variable and whether it is present. *)
Definition LookupEnv (env : gmap string string) (key : string) : string * bool :=
  match env !! key with
  | Some v => (v, true)
  | None => (EmptyString, false)
  end.

End os.

(** ** Package flag: string flags on the command line *)

Module flag.

(** The errors of [Parse]: [ErrHelp], or an error built by [f.failf]. *)
Inductive parse_error : Type :=
| ErrHelp
| failf (msg : string).

Section FlagSet.
(** A string flag holds a pointer to the variable it sets.  [Ptr] is the
    type of these pointers, [Mem] the memory they point into, and
    [write p s m] is the memory after [*p = s]. *)
Context {Mem Ptr : Type} (write : Ptr -> string -> Mem -> Mem).

(** [f.formal]: the flags that are defined, by name. *)
Abbreviation FlagSet := (gmap string Ptr) (only parsing).

(** [StringVar(p, name, value, usage)]: [*p] is set to the default and the
    flag is entered.  [None] is the panic for a flag defined twice. *)
Definition StringVar (p : Ptr) (name value : string) (st : FlagSet * Mem)
  : option (FlagSet * Mem) :=
  match fst st !! name with
  | Some _ => None
  | None => Some (<[name := p]> (fst st), write p value (snd st))
  end.

(** The name in [-name=value], cut at the first [=] that is not the
    first byte. *)
Fixpoint split_eq (s : string) : string * option string :=
  match s with
  | EmptyString => (EmptyString, None)
  | String c r =>
      if Ascii.eqb c "=" then (EmptyString, Some r)
      else let '(n, v) := split_eq r in (String c n, v)
  end.

Definition split_name (name : string) : string * option string :=
  match name with
  | EmptyString => (EmptyString, None)
  | String c r => let '(n, v) := split_eq r in (String c n, v)
  end.

(** The text of an argument after its one or two minus signs; [None] for
    an argument that is not a flag, [Some None] for the terminator [--]. *)
Definition flag_text (s : string) : option (option string) :=
  match s with
  | String m (String c r) =>
      if negb (Ascii.eqb m "-") then None
      else if Ascii.eqb c "-" then
        match r with
        | EmptyString => Some None
        | _ => Some (Some r)
        end
      else Some (Some (String c r))
  | _ => None
  end.

Definition bad_syntax (name : string) : bool :=
  match name with
  | EmptyString => true
  | String c _ => Ascii.eqb c "-" || Ascii.eqb c "="
  end.

(** [f.Parse(arguments)]: the loop over [parseOne].  The result is the
    memory after the flags were set and the arguments left over, or the
    error that ends the parse. *)
Fixpoint Parse (formal : FlagSet) (args : list string) (m : Mem)
  : Mem * list string + parse_error :=
  match args with
  | [] => inl (m, [])
  | s :: rest =>
      match flag_text s with
      | None => inl (m, args)
      | Some None => inl (m, rest)
      | Some (Some text) =>
          if bad_syntax text then inr (failf ("bad flag syntax: " ++ s))
          else
            let '(name, value) := split_name text in
            match formal !! name with
            | None =>
                if String.eqb name "help" || String.eqb name "h" then inr ErrHelp
                else inr (failf ("flag provided but not defined: -" ++ name))
            | Some p =>
                match value with
                | Some v => Parse formal rest (write p v m)
                | None =>
                    match rest with
                    | v :: rest' => Parse formal rest' (write p v m)
                    | [] => inr (failf ("flag needs an argument: -" ++ name))
                    end
                end
            end
      end
  end.
End FlagSet.

End flag.

(** ** Package github.com/prometheus/client_golang/prometheus *)

Module prometheus.

Definition Labels : Type := list (string * string).

Record Desc : Type := mkDesc {
  fqName : string;
  help : string;
  constLabels : Labels;
  variableLabels : list string;
  err : option error
}.

Inductive ValueType : Type := CounterValue | GaugeValue | UntypedValue.

(** A constant metric: its descriptor, its type, its value and the values
    of its variable labels. *)
Record Metric : Type := mkMetric {
  desc : Desc;
  valType : ValueType;
  val : Z;
  labelValues : list string
}.

(** [BuildFQName]: the parts that are not empty, joined by underscores. *)
Definition BuildFQName (namespace subsystem name : string) : string :=
  if String.eqb name EmptyString then EmptyString
  else if negb (String.eqb namespace EmptyString) && negb (String.eqb subsystem EmptyString)
  then namespace ++ "_" ++ subsystem ++ "_" ++ name
  else if negb (String.eqb namespace EmptyString) then namespace ++ "_" ++ name
  else if negb (String.eqb subsystem EmptyString) then subsystem ++ "_" ++ name
  else name.

Definition name_start (c : ascii) : bool :=
  is_lower c || is_upper c || Ascii.eqb c "_" || Ascii.eqb c ":".

Fixpoint name_rest (s : string) : bool :=
  match s with
  | EmptyString => true
  | String c r => (name_start c || is_digit c) && name_rest r
  end.

(** [model.IsValidMetricName]. *)
Definition IsValidMetricName (s : string) : bool :=
  match s with
  | EmptyString => false
  | String c r => name_start c && name_rest r
  end.

(** [NewDesc], for a descriptor without labels: an invalid name is kept in
    the descriptor as its error. *)
Definition NewDesc (fqName help : string) (variableLabels : list string)
  (constLabels : Labels) : Desc :=
  mkDesc fqName help constLabels variableLabels
    (if IsValidMetricName fqName then None
     else Some (errorString (fqName ++ " is not a valid metric name"))).

(** [MustNewConstMetric]: the metric, or the value it panics with. *)
Definition MustNewConstMetric (d : Desc) (t : ValueType) (value : Z)
  (labelValues : list string) : Metric + error :=
  match err d with
  | Some e => inr e
  | None =>
      if (List.length labelValues =? List.length (variableLabels d))%nat
      then inl (mkMetric d t value labelValues)
      else inr (errorString "inconsistent label cardinality")
  end.

(** *** The registry *)

Fixpoint insert_label (l : string * string) (ls : Labels) : Labels :=
  match ls with
  | [] => [l]
  | x :: r => if String.leb (fst l) (fst x) then l :: ls else x :: insert_label l r
  end.

(** The constant labels in the order of their names. *)
Fixpoint sort_labels (ls : Labels) : Labels :=
  match ls with
  | [] => []
  | l :: r => insert_label l (sort_labels r)
  end.

(** What [desc.id] hashes: the name and the values of the constant labels.
    The hash is taken to tell apart what it hashes. *)
Definition desc_id (d : Desc) : string * list string :=
  (fqName d, List.map snd (sort_labels (constLabels d))).

(** What [desc.dimHash] hashes: the help text and the names of the labels,
    those of the variable labels marked with a dollar sign. *)
Definition desc_dim (d : Desc) : string * list string :=
  (help d,
   (List.map fst (sort_labels (constLabels d)) ++ List.map (String "$") (variableLabels d))%list).

(** A [Registry].  The identity of a collector, in Go the exclusive or of
    the identities of its descriptors, is the set of these identities. *)
Record Registry : Type := mkRegistry {
  collectorsByID : list (gset (string * list string));
  descIDs : gset (string * list string);
  dimHashesByName : gmap string (string * list string);
  uncheckedCollectors : nat
}.

Inductive register_error : Type :=
| InvalidDescriptor (d : Desc) (e : error)
| InconsistentWithRegistered (d : Desc)
| InconsistentInCollector (d : Desc)
| AlreadyRegisteredError
| DuplicateDescriptor (d : Desc).

(** The loop of [Register] over the descriptors that [Describe] sends: the
    identities seen so far, the dimensions of the names first seen in this
    collector, and the descriptor last found to be registered already. *)
Fixpoint check_descs (r : Registry) (descs : list Desc)
  (newDescIDs : gset (string * list string))
  (newDims : gmap string (string * list string)) (duplicate : option Desc)
  : register_error
    + (gset (string * list string) * gmap string (string * list string) * option Desc) :=
  match descs with
  | [] => inr (newDescIDs, newDims, duplicate)
  | d :: descs' =>
      match err d with
      | Some e => inl (InvalidDescriptor d e)
      | None =>
          let duplicate' :=
            if bool_decide (desc_id d ∈ descIDs r) then Some d else duplicate in
          let newDescIDs' := {[desc_id d]} ∪ newDescIDs in
          match dimHashesByName r !! fqName d with
          | Some dim =>
              if bool_decide (dim = desc_dim d)
              then check_descs r descs' newDescIDs' newDims duplicate'
              else inl (InconsistentWithRegistered d)
          | None =>
              match newDims !! fqName d with
              | Some dim =>
                  if bool_decide (dim = desc_dim d)
                  then check_descs r descs' newDescIDs' newDims duplicate'
                  else inl (InconsistentInCollector d)
              | None =>
                  check_descs r descs' newDescIDs' (<[fqName d := desc_dim d]> newDims)
                    duplicate'
              end
          end
      end
  end.

(** [Register], for a collector whose [Describe] sends [descs]: the registry
    afterwards and the error returned.  A registry is changed only when the
    error is nil. *)
Definition Register (r : Registry) (descs : list Desc) : Registry * option register_error :=
  match check_descs r descs ∅ ∅ None with
  | inl e => (r, Some e)
  | inr (newDescIDs, newDims, duplicate) =>
      if bool_decide (newDescIDs = ∅) then
        (mkRegistry (collectorsByID r) (descIDs r) (dimHashesByName r)
           (S (uncheckedCollectors r)), None)
      else if bool_decide (newDescIDs ∈ collectorsByID r) then (r, Some AlreadyRegisteredError)
      else
        match duplicate with
        | Some d => (r, Some (DuplicateDescriptor d))
        | None =>
            (mkRegistry (newDescIDs :: collectorsByID r) (newDescIDs ∪ descIDs r)
               (newDims ∪ dimHashesByName r) (uncheckedCollectors r), None)
        end
  end.

End prometheus.

(** * main.go *)

(** ** [TimeUTC] *)

(** [type TimeUTC time.Time]. *)
Inductive TimeUTC : Type := mkTimeUTC (t : time.Time).

Definition TimeUTC_zero : TimeUTC := mkTimeUTC time.zero.

Definition TimeUTCFormat : string := "2006-01-02T15:04:05.999999Z07:00".

(** The body of [func (t TimeUTC) UnmarshalJSON(b []byte) error].  The
    receiver [t] is a variable of the method; the result is the value that
    this variable holds when the method returns, and the error returned. *)
Definition TimeUTC_UnmarshalJSON_body (t : TimeUTC) (b : string) : TimeUTC * option error :=
  let '(s, err) := decode.Unmarshal decode.store_string b EmptyString in
  match err with
  | Some e => (t, Some e)
  | None =>
      match time.Parse TimeUTCFormat s with
      | inr e => (t, Some e)
      | inl parsed => (mkTimeUTC parsed, None)
      end
  end.

(** The call [x.UnmarshalJSON(b)] seen from the caller that holds [x].  The
    receiver is passed by value: the method works on a copy, so the caller
    keeps [x] and gets the error only. *)
Definition TimeUTC_UnmarshalJSON (x : TimeUTC) (b : string) : TimeUTC * option error :=
  (x, snd (TimeUTC_UnmarshalJSON_body x b)).

(** ** The descriptors *)

Definition namespace : string := "uls".

Definition up : prometheus.Desc :=
  prometheus.NewDesc (prometheus.BuildFQName namespace EmptyString "up")
    "ULS is up and running" [] [].

Definition lease : prometheus.Desc :=
  prometheus.NewDesc (prometheus.BuildFQName namespace EmptyString "leases")
    "Number of active ULS leases" [] [].

(** ** The lease records *)

Record ULSClientEntitlementContext : Type := mkContext {
  EnvironmentDomain : string;
  EnvironmentHostname : string;
  EnvironmentUser : string;
  LegacyMachineBinding1 : string;
  LegacyMachineBinding2 : string;
  LegacyMachineBinding5 : string
}.

Record ULSLease : Type := mkLease {
  FloatingLeaseID : Z;
  Token : uuid.UUID;
  CreatedTimeUTC : TimeUTC;
  LastRenewalTimeUTC : TimeUTC;
  IsRevoked : bool;
  ClientEntitlementContext : ULSClientEntitlementContext;
  EntitlementGroupIDs : slice string
}.

Definition ULSClientEntitlementContext_zero : ULSClientEntitlementContext :=
  mkContext EmptyString EmptyString EmptyString EmptyString EmptyString EmptyString.

Definition ULSLease_zero : ULSLease :=
  mkLease 0 uuid.Nil TimeUTC_zero TimeUTC_zero false ULSClientEntitlementContext_zero None.

(** The fields of the two structs, under the names of their [json] tags. *)
Inductive context_field : Type :=
| fEnvironmentDomain | fEnvironmentHostname | fEnvironmentUser
| fLegacyMachineBinding1 | fLegacyMachineBinding2 | fLegacyMachineBinding5.

Definition context_fields : list (string * context_field) :=
  [ ("EnvironmentDomain", fEnvironmentDomain);
    ("EnvironmentHostname", fEnvironmentHostname);
    ("EnvironmentUser", fEnvironmentUser);
    ("Legacy.MachineBinding1", fLegacyMachineBinding1);
    ("Legacy.MachineBinding2", fLegacyMachineBinding2);
    ("Legacy.MachineBinding5", fLegacyMachineBinding5) ].

Inductive lease_field : Type :=
| fFloatingLeaseID | fToken | fCreatedTimeUTC | fLastRenewalTimeUTC
| fIsRevoked | fClientEntitlementContext | fEntitlementGroupIDs.

Definition lease_fields : list (string * lease_field) :=
  [ ("floatingLeaseId", fFloatingLeaseID);
    ("token", fToken);
    ("createdTimeUtc", fCreatedTimeUTC);
    ("lastRenewalTimeUtc", fLastRenewalTimeUTC);
    ("isRevoked", fIsRevoked);
    ("clientEntitlementContext", fClientEntitlementContext);
    ("entitlementGroupIds", fEntitlementGroupIDs) ].

(** ** How encoding/json stores into the types of the program *)

Import decode.

Definition store_context_field (f : context_field) (raw : string) (v : json.value)
  (c : ULSClientEntitlementContext) (saved : option error)
  : result ULSClientEntitlementContext :=
  match f with
  | fEnvironmentDomain =>
      map_result
        (fun s => mkContext s (EnvironmentHostname c) (EnvironmentUser c)
                    (LegacyMachineBinding1 c) (LegacyMachineBinding2 c) (LegacyMachineBinding5 c))
        (store_string v (EnvironmentDomain c) saved)
  | fEnvironmentHostname =>
      map_result
        (fun s => mkContext (EnvironmentDomain c) s (EnvironmentUser c)
                    (LegacyMachineBinding1 c) (LegacyMachineBinding2 c) (LegacyMachineBinding5 c))
        (store_string v (EnvironmentHostname c) saved)
  | fEnvironmentUser =>
      map_result
        (fun s => mkContext (EnvironmentDomain c) (EnvironmentHostname c) s
                    (LegacyMachineBinding1 c) (LegacyMachineBinding2 c) (LegacyMachineBinding5 c))
        (store_string v (EnvironmentUser c) saved)
  | fLegacyMachineBinding1 =>
      map_result
        (fun s => mkContext (EnvironmentDomain c) (EnvironmentHostname c) (EnvironmentUser c)
                    s (LegacyMachineBinding2 c) (LegacyMachineBinding5 c))
        (store_string v (LegacyMachineBinding1 c) saved)
  | fLegacyMachineBinding2 =>
      map_result
        (fun s => mkContext (EnvironmentDomain c) (EnvironmentHostname c) (EnvironmentUser c)
                    (LegacyMachineBinding1 c) s (LegacyMachineBinding5 c))
        (store_string v (LegacyMachineBinding2 c) saved)
  | fLegacyMachineBinding5 =>
      map_result
        (fun s => mkContext (EnvironmentDomain c) (EnvironmentHostname c) (EnvironmentUser c)
                    (LegacyMachineBinding1 c) (LegacyMachineBinding2 c) s)
        (store_string v (LegacyMachineBinding5 c) saved)
  end.

Definition store_context : json.value -> ULSClientEntitlementContext -> option error
                           -> result ULSClientEntitlementContext :=
  store_struct "main.ULSClientEntitlementContext" context_fields store_context_field.

(** A field of type [TimeUTC] has the method [UnmarshalJSON]: the decoder
    calls it with the bytes of the member's value, whatever their kind, and
    stops on its error. *)
Definition store_TimeUTC (raw : string) (x : TimeUTC) (saved : option error)
  : result TimeUTC :=
  let '(x', err) := TimeUTC_UnmarshalJSON x raw in mkResult x' err saved.

Definition store_lease_field (f : lease_field) (raw : string) (v : json.value)
  (l : ULSLease) (saved : option error) : result ULSLease :=
  match f with
  | fFloatingLeaseID =>
      map_result
        (fun n => mkLease n (Token l) (CreatedTimeUTC l) (LastRenewalTimeUTC l)
                    (IsRevoked l) (ClientEntitlementContext l) (EntitlementGroupIDs l))
        (store_int v (FloatingLeaseID l) saved)
  | fToken =>
      map_result
        (fun u => mkLease (FloatingLeaseID l) u (CreatedTimeUTC l) (LastRenewalTimeUTC l)
                    (IsRevoked l) (ClientEntitlementContext l) (EntitlementGroupIDs l))
        (store_text "uuid.UUID" uuid.ParseBytes v (Token l) saved)
  | fCreatedTimeUTC =>
      map_result
        (fun t => mkLease (FloatingLeaseID l) (Token l) t (LastRenewalTimeUTC l)
                    (IsRevoked l) (ClientEntitlementContext l) (EntitlementGroupIDs l))
        (store_TimeUTC raw (CreatedTimeUTC l) saved)
  | fLastRenewalTimeUTC =>
      map_result
        (fun t => mkLease (FloatingLeaseID l) (Token l) (CreatedTimeUTC l) t
                    (IsRevoked l) (ClientEntitlementContext l) (EntitlementGroupIDs l))
        (store_TimeUTC raw (LastRenewalTimeUTC l) saved)
  | fIsRevoked =>
      map_result
        (fun b => mkLease (FloatingLeaseID l) (Token l) (CreatedTimeUTC l)
                    (LastRenewalTimeUTC l) b (ClientEntitlementContext l)
                    (EntitlementGroupIDs l))
        (store_bool v (IsRevoked l) saved)
  | fClientEntitlementContext =>
      map_result
        (fun c => mkLease (FloatingLeaseID l) (Token l) (CreatedTimeUTC l)
                    (LastRenewalTimeUTC l) (IsRevoked l) c (EntitlementGroupIDs l))
        (store_context v (ClientEntitlementContext l) saved)
  | fEntitlementGroupIDs =>
      map_result
        (fun g => mkLease (FloatingLeaseID l) (Token l) (CreatedTimeUTC l)
                    (LastRenewalTimeUTC l) (IsRevoked l) (ClientEntitlementContext l) g)
        (store_slice "[]string" store_string EmptyString v (EntitlementGroupIDs l) saved)
  end.

Definition store_lease : json.value -> ULSLease -> option error -> result ULSLease :=
  store_struct "main.ULSLease" lease_fields store_lease_field.

Definition store_leases : json.value -> slice ULSLease -> option error
                          -> result (slice ULSLease) :=
  store_slice "[]main.ULSLease" store_lease ULSLease_zero.

(** ** The exporter *)

(** A pointer to a [url.URL], held as the text that its [String] method gives. *)
Record URL : Type := mkURL { URL_String : string }.

Record ULSExporter : Type := mkExporter { BaseURL : URL }.

(** A pointer to an [http.Response].  [Body] is what [ioutil.ReadAll(res.Body)] returns:
    the bytes read, and the error that ended the reading if there was one. *)
Record Response : Type := mkResponse {
  StatusCode : Z;
  Status : string;
  Body : string * option error
}.

Definition StatusOK : Z := 200.

(** What lies outside the program during one scrape: the answer of
    the method [Parse] of a [url.URL] to a reference, and the answer of [http.Get] to an
    address. *)
Record World : Type := mkWorld {
  url_Parse : URL -> string -> URL + error;
  http_Get : string -> Response + error
}.

Definition Describe (e : ULSExporter) : list prometheus.Desc := [up; lease].

(** [GetLeases].  The deferred [res.Body.Close()] has no effect that the
    program observes and is left out. *)
Definition GetLeases (w : World) (e : ULSExporter) : slice ULSLease * option error :=
  match url_Parse w (BaseURL e) "/v1/admin/lease" with
  | inr err => (None, Some err)
  | inl leaseURL =>
      match http_Get w (URL_String leaseURL) with
      | inr err => (None, Some err)
      | inl res =>
          if negb (StatusCode res =? StatusOK)%Z then
            (None, Some (fmt.Errorf_d_s (StatusCode res) (Status res)))
          else
            let '(b, err) := Body res in
            match err with
            | Some err => (None, Some err)
            | None =>
                let '(leases, err) := Unmarshal store_leases b None in
                match err with
                | Some err => (None, Some err)
                | None => (leases, None)
                end
            end
      end
  end.

(** What one call of [Collect] does: the metrics sent on the channel in
    order, the errors given to [log.Println], and the value of the panic if
    the call panics. *)
Record Collected : Type := mkCollected {
  sent : list prometheus.Metric;
  logged : list error;
  panicked : option error
}.

Definition Collect (w : World) (e : ULSExporter) : Collected :=
  let '(leases, err) := GetLeases w e in
  match err with
  | Some err =>
      match prometheus.MustNewConstMetric up prometheus.GaugeValue 0 [] with
      | inr p => mkCollected [] [] (Some p)
      | inl m => mkCollected [m] [err] None
      end
  | None =>
      match prometheus.MustNewConstMetric up prometheus.GaugeValue 1 [] with
      | inr p => mkCollected [] [] (Some p)
      | inl m1 =>
          match prometheus.MustNewConstMetric lease prometheus.GaugeValue (len leases) [] with
          | inr p => mkCollected [m1] [] (Some p)
          | inl m2 => mkCollected [m1; m2] [] None
          end
      end
  end.

(** ** Configuration *)

Record App : Type := mkApp { Listen : string; Path : string; URI : string }.

(** The pointers [&app.Listen], [&app.Path] and [&app.URI]. *)
Inductive app_ptr : Type := pListen | pPath | pURI.

Definition app_write (p : app_ptr) (s : string) (app : App) : App :=
  match p with
  | pListen => mkApp s (Path app) (URI app)
  | pPath => mkApp (Listen app) s (URI app)
  | pURI => mkApp (Listen app) (Path app) s
  end.

Definition app_read (p : app_ptr) (app : App) : string :=
  match p with
  | pListen => Listen app
  | pPath => Path app
  | pURI => URI app
  end.

Definition envDefault (environ : gmap string string) (env def : string) : string :=
  let '(s, ok) := os.LookupEnv environ env in
  if ok then s else def.

(** How [Main] gets past its first four statements. *)
Inductive configured : Type :=
| Configured (app : App) (rest : list string)
| Exit (code : Z)
| Panic.

(** The first four statements of the method [Main] of [App]: the three flags are defined
    with their defaults, then [flag.Parse] reads the command line [args]
    ([os.Args[1:]]).  The flag set of the package exits on an error: with
    status 0 after a request for help, with status 2 otherwise. *)
Definition App_Main_flags (environ : gmap string string) (args : list string) (app : App)
  : configured :=
  let define p name value st :=
    match st with
    | Some st => flag.StringVar app_write p name value st
    | None => None
    end in
  let st := Some (∅, app) in
  let st := define pListen "listen" (envDefault environ "ULS_LISTEN" ":9101") st in
  let st := define pPath "path" (envDefault environ "ULS_PATH" "/metrics") st in
  let st := define pURI "uri" (envDefault environ "ULS_URI" "http://localhost:8080") st in
  match st with
  | None => Panic
  | Some (formal, app) =>
      match flag.Parse app_write formal args app with
      | inl (app', rest) => Configured app' rest
      | inr flag.ErrHelp => Exit 0
      | inr (flag.failf _) => Exit 2
      end
  end.

(** ** The rest of [Main], and [main] *)

(** What lies outside the program while it starts: the answer of [url.Parse]
    to a text, the default registry of the Prometheus client, whether
    [http.Handle] takes a pattern (it panics otherwise), and what
    [http.ListenAndServe] returns for an address, [None] when it serves
    without end. *)
Record Host : Type := mkHost {
  url_Parse_text : string -> URL + error;
  DefaultRegisterer : prometheus.Registry;
  pattern_ok : string -> bool;
  ListenAndServe : string -> option error
}.

(** [NewULSExporter]: the exporter with a nil error, or nil with the error
    of [url.Parse]. *)
Definition NewULSExporter (h : Host) (baseURL : string) : ULSExporter + error :=
  match url_Parse_text h baseURL with
  | inr err => inr err
  | inl u => inl (mkExporter u)
  end.

(** What [Main] does to the outside, in order. *)
Inductive event : Type :=
| Registered (e : ULSExporter) (r : prometheus.Registry)
| Handled (pattern : string)
| Listening (addr : string).

(** The error that [Main] returns, by the statement that gives it. *)
Inductive main_error : Type :=
| ExporterError (e : error)
| RegisterError (e : prometheus.register_error)
| ServeError (e : error).

(** How a call of [Main] ends. *)
Inductive main_end : Type :=
| Returns (e : main_error)
| Serves
| Exits (code : Z)
| Panics.

(** [Main] after [flag.Parse]. *)
Definition App_Main_serve (h : Host) (app : App) : main_end * list event :=
  match NewULSExporter h (URI app) with
  | inr err => (Returns (ExporterError err), [])
  | inl exporter =>
      match prometheus.Register (DefaultRegisterer h) (Describe exporter) with
      | (_, Some err) => (Returns (RegisterError err), [])
      | (r, None) =>
          if pattern_ok h (Path app) then
            match ListenAndServe h (Listen app) with
            | Some err =>
                (Returns (ServeError err),
                 [Registered exporter r; Handled (Path app); Listening (Listen app)])
            | None =>
                (Serves, [Registered exporter r; Handled (Path app); Listening (Listen app)])
            end
          else (Panics, [Registered exporter r])
      end
  end.

(** The method [Main] of [App]. *)
Definition App_Main (h : Host) (environ : gmap string string) (args : list string) (app : App)
  : main_end * list event :=
  match App_Main_flags environ args app with
  | Configured app' _ => App_Main_serve h app'
  | Exit code => (Exits code, [])
  | Panic => (Panics, [])
  end.

(** How the process ends: its exit status, or [None] while it serves.  A
    panic that nothing recovers ends the process with status 2, [log.Fatal]
    with status 1. *)
Definition main (h : Host) (environ : gmap string string) (args : list string)
  : option Z * list event :=
  match App_Main h environ args (mkApp EmptyString EmptyString EmptyString) with
  | (Returns _, t) => (Some 1%Z, t)
  | (Serves, t) => (None, t)
  | (Exits code, t) => (Some code, t)
  | (Panics, t) => (Some 2%Z, t)
  end.

(** * Specification *)

(** ** The notions in which the properties are stated *)

(** The sample of a gauge without labels. *)
Definition gauge (d : prometheus.Desc) (v : Z) : prometheus.Metric :=
  prometheus.mkMetric d prometheus.GaugeValue v [].

(** The upstream answers the request of [GetLeases] with the response [res]. *)
Definition responds (w : World) (e : ULSExporter) (res : Response) : Prop :=
  exists leaseURL,
    url_Parse w (BaseURL e) "/v1/admin/lease" = inl leaseURL /\
    http_Get w (URL_String leaseURL) = inl res.

(** The five ways in which a fetch fails, each with the error it gives. *)
Inductive fetch_failure (w : World) (e : ULSExporter) : error -> Prop :=
| url_resolution_failure err :
    url_Parse w (BaseURL e) "/v1/admin/lease" = inr err ->
    fetch_failure w e err
| network_failure leaseURL err :
    url_Parse w (BaseURL e) "/v1/admin/lease" = inl leaseURL ->
    http_Get w (URL_String leaseURL) = inr err ->
    fetch_failure w e err
| non_200_status res :
    responds w e res ->
    StatusCode res <> 200%Z ->
    fetch_failure w e (fmt.Errorf_d_s (StatusCode res) (Status res))
| body_read_failure res b err :
    responds w e res ->
    StatusCode res = 200%Z ->
    Body res = (b, Some err) ->
    fetch_failure w e err
| json_decode_failure res b partial err :
    responds w e res ->
    StatusCode res = 200%Z ->
    Body res = (b, None) ->
    Unmarshal store_leases b None = (partial, Some err) ->
    fetch_failure w e err.

(** A JSON value is a lease record when it decodes into a [ULSLease] without
    any error, stopping or saved. *)
Definition lease_record (j : json.value) : Prop :=
  exists l, store_lease j ULSLease_zero None = mkResult l None None.

(** Whether the bytes [raw] are a JSON string that [time.Parse] reads in the
    layout [TimeUTCFormat]. *)
Definition json_timestamp (raw : string) : bool :=
  match json.scan raw with
  | Some (json.Str s) =>
      match time.Parse TimeUTCFormat s with
      | inl _ => true
      | inr _ => false
      end
  | _ => false
  end.

(** The record of the upstream contract: an object whose members are among
    [floatingLeaseId] (an integer), [token] (a UUID in a string),
    [createdTimeUtc] and [lastRenewalTimeUtc] (timestamps in a string),
    [isRevoked] (a boolean), [clientEntitlementContext] (an object of
    strings under the six names of the context) and [entitlementGroupIds]
    (an array of strings). *)
Definition wire_string (v : json.value) : Prop := exists s, v = json.Str s.

Definition wire_context_member (m : string * string * json.value) : Prop :=
  In (fst (fst m)) (List.map fst context_fields) /\ wire_string (snd m).

Definition wire_lease_member (m : string * string * json.value) : Prop :=
  let '(key, raw, v) := m in
  (key = "floatingLeaseId" /\ exists lit n, v = json.Number lit /\ ParseInt lit = Some n) \/
  (key = "token" /\ exists s u, v = json.Str s /\ uuid.ParseBytes s = inl u) \/
  (key = "createdTimeUtc" /\ json_timestamp raw = true) \/
  (key = "lastRenewalTimeUtc" /\ json_timestamp raw = true) \/
  (key = "isRevoked" /\ exists b, v = json.Bool b) \/
  (key = "clientEntitlementContext" /\
   exists members, v = json.Object members /\ Forall wire_context_member members) \/
  (key = "entitlementGroupIds" /\
   exists elems, v = json.Array elems /\ Forall wire_string elems).

Definition wire_lease (j : json.value) : Prop :=
  exists members, j = json.Object members /\ Forall wire_lease_member members.

(** Both timestamps of a lease are the zero time. *)
Definition times_unset (l : ULSLease) : Prop :=
  CreatedTimeUTC l = TimeUTC_zero /\ LastRenewalTimeUTC l = TimeUTC_zero.

(** The key of a member names one of the two timestamp fields. *)
Definition timestamp_field (key : string) : Prop :=
  lookup_field lease_fields key = Some fCreatedTimeUTC \/
  lookup_field lease_fields key = Some fLastRenewalTimeUTC.

(** The record [j] has a member for [createdTimeUtc] or [lastRenewalTimeUtc]
    whose value is not a JSON string in the timestamp format. *)
Definition bad_timestamp (j : json.value) : Prop :=
  exists members key raw v,
    j = json.Object members /\ In (key, raw, v) members /\
    timestamp_field key /\ json_timestamp raw = false.

(** The flags that a command line sets and their values, in the order of the
    command line, up to the first argument that is not a flag. *)
Fixpoint given (args : list string) : list (string * string) :=
  match args with
  | [] => []
  | s :: rest =>
      match flag.flag_text s with
      | Some (Some text) =>
          match flag.split_name text with
          | (name, Some v) => (name, v) :: given rest
          | (name, None) =>
              match rest with
              | v :: rest' => (name, v) :: given rest'
              | [] => []
              end
          end
      | _ => []
      end
  end.

(** The value that the last setting of [name] gives, if [name] is set. *)
Fixpoint last_value (name : string) (settings : list (string * string)) : option string :=
  match settings with
  | [] => None
  | (n, v) :: settings' =>
      match last_value name settings' with
      | Some later => Some later
      | None => if String.eqb n name then Some v else None
      end
  end.

(** The value of a setting as the specification words it: the flag when it
    is given, else the environment variable when it is set, else the
    hard-coded default. *)
Definition effective (flag_value env_value : option string) (def : string) : string :=
  match flag_value, env_value with
  | Some v, _ => v
  | None, Some v => v
  | None, None => def
  end.

(** The flag set of the program once the three flags are defined. *)
Definition CommandLine : gmap string app_ptr :=
  <["uri" := pURI]> (<["path" := pPath]> (<["listen" := pListen]> ∅)).

(** Whether the Go type of the field [f] takes the JSON value [v] without a
    type mismatch.  The two timestamp fields take every value: their method
    [UnmarshalJSON] decides. *)
Definition field_takes (f : lease_field) (v : json.value) : bool :=
  match f, v with
  | _, json.Null => true
  | fFloatingLeaseID, json.Number lit =>
      match ParseInt lit with Some _ => true | None => false end
  | fToken, json.Str _ => true
  | fCreatedTimeUTC, _ => true
  | fLastRenewalTimeUTC, _ => true
  | fIsRevoked, json.Bool _ => true
  | fClientEntitlementContext, json.Object _ => true
  | fEntitlementGroupIDs, json.Array _ => true
  | _, _ => false
  end.

(** An element of the array that cannot be a lease for its types alone: a
    value that is neither an object nor null, or an object with a member that
    names a field whose type does not take the value of the member. *)
Definition ill_typed (j : json.value) : Prop :=
  match j with
  | json.Null => False
  | json.Object members =>
      exists key raw v f,
        In (key, raw, v) members /\
        lookup_field lease_fields key = Some f /\ field_takes f v = false
  | _ => True
  end.

(** The body [b] denotes [n] leases: it is null and [n] is 0, or it is an
    array of [n] lease records. *)
Definition denotes_leases (b : string) (n : Z) : Prop :=
  (json.scan b = Some json.Null /\ n = 0%Z) \/
  (exists items,
      json.scan b = Some (json.Array items) /\ Forall lease_record items /\
      n = Z.of_nat (List.length items)).

(** A result that makes [json.Unmarshal] return an error. *)
Definition fails {A : Type} (r : result A) : Prop :=
  res_err r <> None \/ res_saved r <> None.

(** The command line asks for help: one of its arguments is a flag named
    [h] or [help]. *)
Definition help_asked (args : list string) : Prop :=
  exists s text,
    In s args /\ flag.flag_text s = Some (Some text) /\
    (fst (flag.split_name text) = "help" \/ fst (flag.split_name text) = "h").

(** The three settings that a command line and an environment give. *)
Definition settings (environ : gmap string string) (args : list string) : App :=
  mkApp
    (effective (last_value "listen" (given args)) (environ !! "ULS_LISTEN") ":9101")
    (effective (last_value "path" (given args)) (environ !! "ULS_PATH") "/metrics")
    (effective (last_value "uri" (given args)) (environ !! "ULS_URI")
       "http://localhost:8080").

(** The identities of the two descriptors of the exporter, as a collector. *)
Definition exporter_ids : gset (string * list string) :=
  {[ prometheus.desc_id lease ]} ∪ ({[ prometheus.desc_id up ]} ∪ ∅).

(** The error of [json.Unmarshal] on a text that denotes neither null nor an
    array, for the type of a slice of leases. *)
Definition not_array_error (b : string) : error :=
  match json.scan b with
  | None => SyntaxError
  | Some v => UnmarshalTypeError (kind_name v) "[]main.ULSLease"
  end.

(** ** Inputs of the examples *)

(** Resolution of a rooted reference against a base without a path. *)
Definition resolve (base : URL) (ref : string) : URL + error :=
  inl (mkURL (URL_String base ++ ref)).

(** An upstream that gives the same answer to every request. *)
Definition upstream (answer : Response + error) : World := mkWorld resolve (fun _ => answer).

Definition ok_response (body : string) : Response := mkResponse 200 "200 OK" (body, None).

Definition unavailable : Response :=
  mkResponse 503 "503 Service Unavailable" (EmptyString, None).

Definition exporter0 : ULSExporter := mkExporter (mkURL "http://localhost:8080").

(** The elements of the array that a JSON text denotes. *)
Definition elements (data : string) : list json.value :=
  match json.scan data with
  | Some (json.Array items) => items
  | _ => []
  end.

(** A body with two records of the upstream contract. *)
Definition two_leases : string :=
  dq ("[{'floatingLeaseId':7,'token':'6ba7b810-9dad-11d1-80b4-00c04fd430c8',"
      ++ "'createdTimeUtc':'2021-03-04T05:06:07.123456Z',"
      ++ "'lastRenewalTimeUtc':'2021-03-04T05:07:00+00:00','isRevoked':false,"
      ++ "'clientEntitlementContext':{'EnvironmentDomain':'d','EnvironmentHostname':'h',"
      ++ "'EnvironmentUser':'u','Legacy.MachineBinding1':'1','Legacy.MachineBinding2':'2',"
      ++ "'Legacy.MachineBinding5':'5'},'entitlementGroupIds':['a','b']}, "
      ++ "{'floatingLeaseId':8,'token':'6ba7b8109dad11d180b400c04fd430c8',"
      ++ "'createdTimeUtc':'2021-03-04T05:06:07Z','lastRenewalTimeUtc':'2021-03-04T05:06:08Z',"
      ++ "'isRevoked':true,'clientEntitlementContext':{},'entitlementGroupIds':[]}]").

(** A body whose second record has a malformed token: the decoder has stored
    two leases when it stops. *)
Definition bad_token : string := dq "[{'floatingLeaseId':7},{'token':'no'}]".

(** A body whose second record has a number where a timestamp is due. *)
Definition bad_renewal : string :=
  dq ("[{'floatingLeaseId':1,'createdTimeUtc':'2021-03-04T05:06:07Z'},"
      ++ "{'floatingLeaseId':2,'lastRenewalTimeUtc':1614834367}]").

(** The JSON text of a timestamp. *)
Definition created_text : string := dq "'2021-03-04T05:06:07.123456Z'".

Definition environ0 : gmap string string :=
  <["ULS_PATH" := "/probe"]> (<["ULS_URI" := "http://uls:8080"]> ∅).

Definition args0 : list string := ["-uri=http://a"; "--uri"; "http://b"; "extra"].

(** An environment in which [ULS_LISTEN] is set to the empty value. *)
Definition listen_empty : gmap string string := <["ULS_LISTEN" := EmptyString]> ∅.

(** A registry that holds nothing. *)
Definition empty_registry : prometheus.Registry := prometheus.mkRegistry [] ∅ ∅ 0.

(** A host on which every text is an address, every pattern is taken and
    the server stops with an error. *)
Definition host0 : Host :=
  mkHost (fun s => inl (mkURL s)) empty_registry (fun _ => true)
    (fun _ => Some (ExternalError "address already in use")).

(** A body that is an object, not an array. *)
Definition wrapped_leases : string := dq "{'leases':[]}".

(** A body whose second record has a text where a boolean is due. *)
Definition bad_revoked : string :=
  dq "[{'floatingLeaseId':1},{'floatingLeaseId':2,'isRevoked':'yes'}]".

(** * Properties *)

(** ** The package models on small inputs *)

Example scan_null : json.scan " null " = Some json.Null.
Proof. reflexivity. Qed.

Example scan_empty_array : json.scan "[ ]" = Some (json.Array []).
Proof. reflexivity. Qed.

Example scan_member_bytes :
  json.scan (dq "{'a' : [1, 2] ,'b':'xA'}")
  = Some (json.Object [("a", "[1, 2]", json.Array [json.Number "1"; json.Number "2"]);
                       ("b", dq "'xA'", json.Str "xA")]).
Proof. reflexivity. Qed.

Example scan_refuses :
  List.map json.scan ["[1,]"; "[1 2]"; "01"; "nul"; dq "{'a'}"; dq "'a"; "[]]"; EmptyString]
  = List.repeat None 8.
Proof. reflexivity. Qed.

Example Parse_timestamps :
  time.Parse TimeUTCFormat "2021-03-04T05:06:07.5+01:30"
    = inl (time.mkTime 2021 3 4 5 6 7 500000000 5400) /\
  time.Parse TimeUTCFormat "2021-03-04T05:06:07Z" = inl (time.mkTime 2021 3 4 5 6 7 0 0) /\
  time.Parse TimeUTCFormat "2021-02-29T05:06:07Z"
    = inr (ParseError TimeUTCFormat "2021-02-29T05:06:07Z") /\
  time.Parse TimeUTCFormat "2021-03-04 05:06:07Z"
    = inr (ParseError TimeUTCFormat "2021-03-04 05:06:07Z") /\
  time.Parse TimeUTCFormat EmptyString = inr (ParseError TimeUTCFormat EmptyString).
Proof. repeat split; reflexivity. Qed.

Example lookup_field_folds :
  lookup_field lease_fields "CREATEDTIMEUTC" = Some fCreatedTimeUTC /\
  lookup_field lease_fields "createdTime" = None /\
  lookup_field lease_fields
    ("to" ++ String (ascii_of_N 226) (String (ascii_of_N 132) (str1 (ascii_of_N 170))) ++ "en")
  = Some fToken.
Proof. repeat split; reflexivity. Qed.

Example GetLeases_two_leases :
  exists l1 l2,
    GetLeases (upstream (inl (ok_response two_leases))) exporter0 = (Some [l1; l2], None) /\
    FloatingLeaseID l1 = 7%Z /\ IsRevoked l2 = true /\
    EntitlementGroupIDs l1 = Some ["a"; "b"] /\ EntitlementGroupIDs l2 = Some [].
Proof. do 2 eexists. vm_compute. repeat split; reflexivity. Qed.

Example Collect_connection_refused :
  Collect (upstream (inr (ExternalError "connection refused"))) exporter0
  = mkCollected [gauge up 0] [ExternalError "connection refused"] None.
Proof. reflexivity. Qed.

Example Collect_malformed_body :
  Collect (upstream (inl (ok_response "[{]"))) exporter0
  = mkCollected [gauge up 0] [SyntaxError] None.
Proof. reflexivity. Qed.

Example Collect_null_timestamp :
  Collect (upstream (inl (ok_response (dq "[{'createdTimeUtc':null}]")))) exporter0
  = mkCollected [gauge up 0] [ParseError TimeUTCFormat EmptyString] None.
Proof. reflexivity. Qed.

Example Main_flags_exit :
  App_Main_flags ∅ ["-h"] (mkApp EmptyString EmptyString EmptyString) = Exit 0 /\
  App_Main_flags ∅ ["-port"; "1"] (mkApp EmptyString EmptyString EmptyString) = Exit 2 /\
  App_Main_flags ∅ ["-uri"] (mkApp EmptyString EmptyString EmptyString) = Exit 2.
Proof. repeat split; reflexivity. Qed.

(** ** The metrics are always built *)

Lemma MustNewConstMetric_up v :
  prometheus.MustNewConstMetric up prometheus.GaugeValue v [] = inl (gauge up v).
Proof. reflexivity. Qed.

Lemma MustNewConstMetric_lease v :
  prometheus.MustNewConstMetric lease prometheus.GaugeValue v [] = inl (gauge lease v).
Proof. reflexivity. Qed.

Lemma Collect_failure w e leases err :
  GetLeases w e = (leases, Some err) ->
  Collect w e = mkCollected [gauge up 0] [err] None.
Proof.
  intros H. unfold Collect. rewrite H, MustNewConstMetric_up. reflexivity.
Qed.

Lemma Collect_success w e leases :
  GetLeases w e = (leases, None) ->
  Collect w e = mkCollected [gauge up 1; gauge lease (len leases)] [] None.
Proof.
  intros H. unfold Collect.
  rewrite H, MustNewConstMetric_up, MustNewConstMetric_lease. reflexivity.
Qed.

(** [Collect] never panics. *)
Lemma Collect_no_panic w e : panicked (Collect w e) = None.
Proof.
  destruct (GetLeases w e) as [leases [err|]] eqn:H.
  - now rewrite (Collect_failure _ _ _ _ H).
  - now rewrite (Collect_success _ _ _ H).
Qed.

(** ** [GetLeases] step by step *)

Lemma GetLeases_responds w e res :
  responds w e res ->
  GetLeases w e =
    if negb (StatusCode res =? StatusOK)%Z then
      (None, Some (fmt.Errorf_d_s (StatusCode res) (Status res)))
    else
      match Body res with
      | (_, Some err) => (None, Some err)
      | (b, None) =>
          match Unmarshal store_leases b None with
          | (_, Some err) => (None, Some err)
          | (leases, None) => (leases, None)
          end
      end.
Proof.
  intros (leaseURL & Hu & Hg). unfold GetLeases. rewrite Hu, Hg.
  destruct (negb _); [reflexivity|].
  destruct (Body res) as [b [err|]]; [reflexivity|].
  destruct (Unmarshal store_leases b None) as [leases [err|]]; reflexivity.
Qed.

Lemma status_ok_200 (res : Response) :
  StatusCode res = 200%Z -> negb (StatusCode res =? StatusOK)%Z = false.
Proof. intros ->. reflexivity. Qed.

Lemma status_not_200 (res : Response) :
  StatusCode res <> 200%Z -> negb (StatusCode res =? StatusOK)%Z = true.
Proof.
  intros H. unfold StatusOK. destruct (Z.eqb_spec (StatusCode res) 200); [contradiction|reflexivity].
Qed.

Lemma GetLeases_decodes w e res b :
  responds w e res ->
  StatusCode res = 200%Z ->
  Body res = (b, None) ->
  GetLeases w e =
    match Unmarshal store_leases b None with
    | (_, Some err) => (None, Some err)
    | (leases, None) => (leases, None)
    end.
Proof.
  intros Hr Hs Hb. rewrite (GetLeases_responds _ _ _ Hr), (status_ok_200 _ Hs), Hb.
  reflexivity.
Qed.

(** Every failure of the fetch makes [GetLeases] return the nil slice with
    the error of the failure. *)
Lemma fetch_failure_GetLeases w e err :
  fetch_failure w e err -> GetLeases w e = (None, Some err).
Proof.
  intros [err' Hu | leaseURL err' Hu Hg | res Hr Hs | res b err' Hr Hs Hb
         | res b partial err' Hr Hs Hb Hd].
  - unfold GetLeases. now rewrite Hu.
  - unfold GetLeases. now rewrite Hu, Hg.
  - now rewrite (GetLeases_responds _ _ _ Hr), (status_not_200 _ Hs).
  - now rewrite (GetLeases_responds _ _ _ Hr), (status_ok_200 _ Hs), Hb.
  - now rewrite (GetLeases_decodes _ _ _ _ Hr Hs Hb), Hd.
Qed.

(** Conversely an error of [GetLeases] is one of the five failures. *)
Lemma GetLeases_error_fetch_failure w e leases err :
  GetLeases w e = (leases, Some err) -> fetch_failure w e err.
Proof.
  unfold GetLeases.
  destruct (url_Parse w (BaseURL e) "/v1/admin/lease") as [leaseURL|err1] eqn:Hu.
  2:{ intros [= _ <-]. now apply url_resolution_failure. }
  destruct (http_Get w (URL_String leaseURL)) as [res|err2] eqn:Hg.
  2:{ intros [= _ <-]. now apply network_failure with leaseURL. }
  assert (Hr : responds w e res) by (exists leaseURL; auto).
  destruct (Z.eqb_spec (StatusCode res) StatusOK) as [Hs|Hs]; simpl.
  2:{ intros [= _ <-]. now apply non_200_status. }
  destruct (Body res) as [b [err3|]] eqn:Hb.
  { intros [= _ <-]. now apply body_read_failure with res b. }
  destruct (Unmarshal store_leases b None) as [partial [err4|]] eqn:Hd.
  - intros [= _ <-]. now apply json_decode_failure with res b partial.
  - intros [= _ ?].
Qed.

Lemma responds_upstream res : responds (upstream (inl res)) exporter0 res.
Proof. eexists. split; reflexivity. Qed.

(** ** Success: the count of the leases *)

Lemma array_loop_records items :
  Forall lease_record items ->
  exists leases,
    array_loop store_lease ULSLease_zero items [] None = mkResult leases None None /\
    List.length leases = List.length items.
Proof.
  induction 1 as [|j items [l Hl] _ (leases & IH & Hlen)].
  - exists []. split; reflexivity.
  - exists (l :: leases). simpl. rewrite Hl. simpl. rewrite IH. split.
    + reflexivity.
    + simpl. now rewrite Hlen.
Qed.

Lemma Unmarshal_records b items :
  json.scan b = Some (json.Array items) ->
  Forall lease_record items ->
  exists leases,
    Unmarshal store_leases b None = (Some leases, None) /\
    List.length leases = List.length items.
Proof.
  intros Hb Hrec. destruct (array_loop_records items Hrec) as (leases & Hl & Hlen).
  exists leases. split; [|exact Hlen].
  unfold Unmarshal. rewrite Hb. unfold store_leases, store_slice. rewrite Hl. reflexivity.
Qed.

(** C1.  When the upstream answers with status 200 and a body that is a JSON
    array of N lease records (N may be 0), [GetLeases] returns a slice of N
    leases without error, and [Collect] sends the gauge [up] with value 1
    followed by the gauge [leases] with value N, logs nothing and does not
    panic.  A lease record is any value that decodes into a [ULSLease]
    without error; the records of the upstream contract are among them
    ([wire_lease_record]). *)
Theorem Collect_counts_leases w e res b items :
  responds w e res ->
  StatusCode res = 200%Z ->
  Body res = (b, None) ->
  json.scan b = Some (json.Array items) ->
  Forall lease_record items ->
  (exists leases,
      GetLeases w e = (Some leases, None) /\ List.length leases = List.length items) /\
  Collect w e =
    mkCollected [gauge up 1; gauge lease (Z.of_nat (List.length items))] [] None.
Proof.
  intros Hr Hs Hb Hscan Hrec.
  destruct (Unmarshal_records b items Hscan Hrec) as (leases & Hu & Hlen).
  assert (Hget : GetLeases w e = (Some leases, None)).
  { rewrite (GetLeases_decodes _ _ _ _ Hr Hs Hb), Hu. reflexivity. }
  split.
  - exists leases. split; assumption.
  - rewrite (Collect_success _ _ _ Hget). simpl. now rewrite Hlen.
Qed.

Lemma Collect_counts_leases_witness :
  Collect (upstream (inl (ok_response two_leases))) exporter0 =
    mkCollected [gauge up 1; gauge lease 2] [] None
  /\ Collect (upstream (inl (ok_response "[]"))) exporter0 =
    mkCollected [gauge up 1; gauge lease 0] [] None.
Proof.
  split.
  - refine (proj2 (Collect_counts_leases _ _ (ok_response two_leases) two_leases
                     (elements two_leases) (responds_upstream _) eq_refl eq_refl _ _)).
    + vm_compute. reflexivity.
    + repeat constructor; eexists; vm_compute; reflexivity.
  - refine (proj2 (Collect_counts_leases _ _ (ok_response "[]") "[]" []
                     (responds_upstream _) eq_refl eq_refl eq_refl _)).
    constructor.
Defined.

(** C8.  When the upstream answers with status 200 and the body is the JSON
    literal null, [GetLeases] returns the nil slice without error and
    [Collect] sends up=1 and leases=0: the same metrics as for a body that is
    the empty array. *)
Theorem Collect_null_body w e res b :
  responds w e res ->
  StatusCode res = 200%Z ->
  Body res = (b, None) ->
  json.scan b = Some json.Null ->
  GetLeases w e = (None, None) /\
  Collect w e = mkCollected [gauge up 1; gauge lease 0] [] None /\
  Collect w e = Collect (upstream (inl (ok_response "[]"))) exporter0.
Proof.
  intros Hr Hs Hb Hscan.
  assert (Hget : GetLeases w e = (None, None)).
  { rewrite (GetLeases_decodes _ _ _ _ Hr Hs Hb). unfold Unmarshal. rewrite Hscan.
    reflexivity. }
  split; [exact Hget|]. rewrite (Collect_success _ _ _ Hget). split; reflexivity.
Qed.

Lemma Collect_null_body_witness :
  GetLeases (upstream (inl (ok_response "null"))) exporter0 = (None, None) /\
  Collect (upstream (inl (ok_response "null"))) exporter0 =
    mkCollected [gauge up 1; gauge lease 0] [] None.
Proof.
  destruct (Collect_null_body (upstream (inl (ok_response "null"))) exporter0
              (ok_response "null") "null" (responds_upstream _) eq_refl eq_refl eq_refl)
    as (H1 & H2 & _).
  split; assumption.
Defined.

(** ** Failure *)

(** C2.  After any of the five failures of the fetch, [Collect] sends exactly
    one metric, the gauge [up] with value 0, and logs the error; no sample of
    [leases] is sent, and what is sent differs from what any successful
    cycle sends, a cycle with zero leases included. *)
Theorem Collect_fetch_failure w e err :
  fetch_failure w e err ->
  Collect w e = mkCollected [gauge up 0] [err] None /\
  ~ In lease (List.map prometheus.desc (sent (Collect w e))) /\
  (forall w' e' leases,
      GetLeases w' e' = (leases, None) -> sent (Collect w' e') <> sent (Collect w e)).
Proof.
  intros Hf. pose proof (fetch_failure_GetLeases _ _ _ Hf) as Hget.
  rewrite (Collect_failure _ _ _ _ Hget). split; [reflexivity|]. split.
  - simpl. intros [H|[]]. discriminate H.
  - intros w' e' leases Hget'. rewrite (Collect_success _ _ _ Hget'). simpl. discriminate.
Qed.

Lemma Collect_fetch_failure_witness :
  Collect (upstream (inl unavailable)) exporter0 =
    mkCollected [gauge up 0] [errorString "503 503 Service Unavailable"] None.
Proof.
  refine (proj1 (Collect_fetch_failure (upstream (inl unavailable)) exporter0 _
                   (non_200_status _ _ unavailable (responds_upstream _) _))).
  vm_compute. discriminate.
Defined.

(** C3.  When the upstream answers with a status other than 200, [GetLeases]
    returns the error of [fmt.Errorf] whose text is the status code in
    decimal, a blank, and the status text of the response. *)
Theorem GetLeases_status_error w e res :
  responds w e res ->
  StatusCode res <> 200%Z ->
  GetLeases w e =
    (None, Some (errorString (fmt.verb_d (StatusCode res) ++ " " ++ Status res))).
Proof.
  intros Hr Hs. now rewrite (GetLeases_responds _ _ _ Hr), (status_not_200 _ Hs).
Qed.

Lemma GetLeases_status_error_witness :
  GetLeases (upstream (inl unavailable)) exporter0 =
    (None, Some (errorString "503 503 Service Unavailable")).
Proof.
  refine (GetLeases_status_error _ _ unavailable (responds_upstream _) _).
  vm_compute. discriminate.
Defined.

(** C4.  Under each of the five failures [GetLeases] returns the error of
    the failure together with the nil slice; and whenever it returns an
    error at all, the slice it returns is nil, whatever the decoder had
    stored by then. *)
Theorem GetLeases_all_or_nothing w e err :
  fetch_failure w e err ->
  GetLeases w e = (None, Some err) /\
  (forall leases err', GetLeases w e = (leases, Some err') -> leases = None).
Proof.
  intros Hf. split.
  - now apply fetch_failure_GetLeases.
  - intros leases err' H.
    pose proof (fetch_failure_GetLeases _ _ _ (GetLeases_error_fetch_failure _ _ _ _ H)) as H'.
    congruence.
Qed.

Example Unmarshal_partial :
  exists l1 l2 err, Unmarshal store_leases bad_token None = (Some [l1; l2], Some err).
Proof. do 3 eexists. vm_compute. reflexivity. Qed.

Lemma GetLeases_all_or_nothing_witness :
  GetLeases (upstream (inl (ok_response bad_token))) exporter0 = (None, Some InvalidUUID).
Proof.
  refine (proj1 (GetLeases_all_or_nothing (upstream (inl (ok_response bad_token))) exporter0 _
                   (json_decode_failure _ _ (ok_response bad_token) bad_token _ _
                      (responds_upstream _) eq_refl eq_refl _))).
  vm_compute. reflexivity.
Defined.

(** ** The descriptors *)

(** C5.  [Describe] sends two descriptors, in this order: the one named
    [uls_up] and the one named [uls_leases], both without labels and both
    valid.  The result depends neither on the exporter nor on any state. *)
Theorem Describe_two_descriptors (e : ULSExporter) :
  Describe e =
    [ prometheus.mkDesc "uls_up" "ULS is up and running" [] [] None;
      prometheus.mkDesc "uls_leases" "Number of active ULS leases" [] [] None ].
Proof. reflexivity. Qed.

(** ** The timestamps *)

(** [UnmarshalJSON] returns nil exactly on such bytes. *)
Lemma UnmarshalJSON_nil_iff t raw :
  snd (TimeUTC_UnmarshalJSON t raw) = None <-> json_timestamp raw = true.
Proof.
  unfold TimeUTC_UnmarshalJSON, TimeUTC_UnmarshalJSON_body, json_timestamp, Unmarshal.
  simpl. destruct (json.scan raw) as [[| | |s| |]|]; simpl;
    try (split; discriminate).
  (* null leaves the string empty, which does not parse: closed by computation;
     a string is left to [time.Parse] *)
  destruct (time.Parse TimeUTCFormat s); simpl; split; (reflexivity || discriminate).
Qed.

Lemma store_lease_field_times f raw v l saved :
  CreatedTimeUTC (res_val (store_lease_field f raw v l saved)) = CreatedTimeUTC l /\
  LastRenewalTimeUTC (res_val (store_lease_field f raw v l saved)) = LastRenewalTimeUTC l.
Proof. destruct f; split; reflexivity. Qed.

Lemma object_loop_times members : forall l saved,
  CreatedTimeUTC (res_val (object_loop lease_fields store_lease_field members l saved))
    = CreatedTimeUTC l /\
  LastRenewalTimeUTC (res_val (object_loop lease_fields store_lease_field members l saved))
    = LastRenewalTimeUTC l.
Proof.
  induction members as [|[[key raw] v] members IH]; intros l saved; simpl.
  - split; reflexivity.
  - destruct (lookup_field lease_fields key) as [f|]; [|apply IH].
    destruct (store_lease_field_times f raw v l saved) as [Hc Hr].
    destruct (res_err (store_lease_field f raw v l saved)).
    + split; assumption.
    + destruct (IH (res_val (store_lease_field f raw v l saved))
                  (res_saved (store_lease_field f raw v l saved))) as [Hc' Hr'].
      split; congruence.
Qed.

Lemma store_lease_times v l saved :
  times_unset l -> times_unset (res_val (store_lease v l saved)).
Proof.
  intros [Hc Hr]. unfold times_unset, store_lease, store_struct.
  destruct v; simpl; try (split; assumption).
  destruct (object_loop_times members l saved) as [Hc' Hr']. split; congruence.
Qed.

Lemma array_loop_times items : forall cur saved,
  Forall times_unset cur ->
  Forall times_unset (res_val (array_loop store_lease ULSLease_zero items cur saved)).
Proof.
  induction items as [|j items IH]; intros cur saved Hcur; simpl.
  - constructor.
  - assert (Hx : times_unset (match cur with c :: _ => c | [] => ULSLease_zero end)).
    { destruct Hcur; [split; reflexivity|assumption]. }
    assert (Hrest : Forall times_unset (match cur with _ :: cs => cs | [] => [] end)).
    { destruct Hcur; [constructor|assumption]. }
    destruct cur as [|c cs]; simpl in *.
    + destruct (res_err (store_lease j ULSLease_zero saved)); simpl.
      * constructor; [now apply store_lease_times|constructor].
      * constructor; [now apply store_lease_times|now apply IH].
    + destruct (res_err (store_lease j c saved)); simpl.
      * constructor; [now apply store_lease_times|assumption].
      * constructor; [now apply store_lease_times|now apply IH].
Qed.

(** Whatever the text, the leases that [json.Unmarshal] leaves in a slice that
    was nil have both timestamps at the zero value, also when it reports an
    error. *)
Lemma Unmarshal_times data leases err :
  Unmarshal store_leases data None = (Some leases, err) ->
  Forall times_unset leases.
Proof.
  unfold Unmarshal. destruct (json.scan data) as [v|]; [|discriminate].
  unfold store_leases, store_slice.
  destruct v; simpl; try discriminate.
  intros [= <- _]. apply array_loop_times. constructor.
Qed.

Lemma GetLeases_times w e leases err :
  GetLeases w e = (Some leases, err) -> Forall times_unset leases.
Proof.
  unfold GetLeases.
  destruct (url_Parse _ _ _); [|discriminate].
  destruct (http_Get _ _) as [res|]; [|discriminate].
  destruct (negb _); [discriminate|].
  destruct (Body res) as [b [?|]]; [discriminate|].
  destruct (Unmarshal store_leases b None) as [ls [?|]] eqn:Hu; [discriminate|].
  intros [= -> _]. exact (Unmarshal_times _ _ _ Hu).
Qed.

(** C6.  Let [b] be a JSON text that denotes the string [s], and let [s] be a
    timestamp that [time.Parse] reads in the layout [TimeUTCFormat].  Then
    inside [UnmarshalJSON] the variable [t] receives the parsed time, the
    method returns nil, and the caller's value is what it was before the
    call.  As a result every lease that [GetLeases] returns has its two
    timestamps at the zero value. *)
Theorem UnmarshalJSON_discards_parsed_time t b s parsed :
  json.scan b = Some (json.Str s) ->
  time.Parse TimeUTCFormat s = inl parsed ->
  TimeUTC_UnmarshalJSON_body t b = (mkTimeUTC parsed, None) /\
  TimeUTC_UnmarshalJSON t b = (t, None) /\
  (forall w e leases err,
      GetLeases w e = (Some leases, err) -> Forall times_unset leases).
Proof.
  intros Hb Hs.
  assert (Hbody : TimeUTC_UnmarshalJSON_body t b = (mkTimeUTC parsed, None)).
  { unfold TimeUTC_UnmarshalJSON_body, Unmarshal. rewrite Hb. simpl. now rewrite Hs. }
  split; [exact Hbody|]. split.
  - unfold TimeUTC_UnmarshalJSON. now rewrite Hbody.
  - intros w e leases err. apply GetLeases_times.
Qed.

Lemma UnmarshalJSON_discards_parsed_time_witness :
  TimeUTC_UnmarshalJSON_body TimeUTC_zero created_text
    = (mkTimeUTC (time.mkTime 2021 3 4 5 6 7 123456000 0), None) /\
  TimeUTC_UnmarshalJSON TimeUTC_zero created_text = (TimeUTC_zero, None).
Proof.
  destruct (UnmarshalJSON_discards_parsed_time TimeUTC_zero created_text
              "2021-03-04T05:06:07.123456Z" (time.mkTime 2021 3 4 5 6 7 123456000 0)
              eq_refl eq_refl) as (H1 & H2 & _).
  split; assumption.
Defined.

(** ** The records of the upstream contract are lease records *)

Lemma object_loop_field {S F : Type} (fields : list (string * F))
  (store : F -> string -> json.value -> S -> option error -> result S)
  key raw v members cur cur' f :
  lookup_field fields key = Some f ->
  store f raw v cur None = mkResult cur' None None ->
  object_loop fields store ((key, raw, v) :: members) cur None =
    object_loop fields store members cur' None.
Proof. intros Hf Hs. simpl. rewrite Hf, Hs. reflexivity. Qed.

Lemma array_loop_strings elems :
  Forall wire_string elems ->
  forall cur, exists l, array_loop store_string EmptyString elems cur None = mkResult l None None.
Proof.
  induction 1 as [|v elems [s ->] _ IH]; intros cur.
  - exists []. reflexivity.
  - destruct cur as [|c cs]; simpl.
    + destruct (IH []) as [l Hl]. rewrite Hl. eexists. reflexivity.
    + destruct (IH cs) as [l Hl]. rewrite Hl. eexists. reflexivity.
Qed.

Lemma context_loop_wire members :
  Forall wire_context_member members ->
  forall c, exists c',
    object_loop context_fields store_context_field members c None = mkResult c' None None.
Proof.
  induction 1 as [|[[key raw] v] members [Hkey [s Hv]] _ IH]; intros c.
  - exists c. reflexivity.
  - simpl in Hkey, Hv. subst v.
    destruct Hkey as [<-|[<-|[<-|[<-|[<-|[<-|[]]]]]]];
      (erewrite object_loop_field; [apply IH|reflexivity|reflexivity]).
Qed.

Lemma store_wire_member key raw v l :
  wire_lease_member (key, raw, v) ->
  exists f l',
    lookup_field lease_fields key = Some f /\
    store_lease_field f raw v l None = mkResult l' None None.
Proof.
  intros [(-> & lit & n & -> & Hn) | [(-> & s & u & -> & Hu) | [(-> & Ht) | [(-> & Ht)
         | [(-> & b & ->) | [(-> & ms & -> & Hms) | (-> & elems & -> & Helems)]]]]]].
  - exists fFloatingLeaseID. eexists. split; [reflexivity|].
    unfold store_lease_field, store_int. rewrite Hn. reflexivity.
  - exists fToken. eexists. split; [reflexivity|].
    unfold store_lease_field, store_text. rewrite Hu. reflexivity.
  - exists fCreatedTimeUTC. eexists. split; [reflexivity|].
    unfold store_lease_field, store_TimeUTC, map_result. simpl.
    apply (UnmarshalJSON_nil_iff (CreatedTimeUTC l)) in Ht. simpl in Ht. rewrite Ht.
    reflexivity.
  - exists fLastRenewalTimeUTC. eexists. split; [reflexivity|].
    unfold store_lease_field, store_TimeUTC, map_result. simpl.
    apply (UnmarshalJSON_nil_iff (LastRenewalTimeUTC l)) in Ht. simpl in Ht. rewrite Ht.
    reflexivity.
  - exists fIsRevoked. eexists. split; reflexivity.
  - destruct (context_loop_wire ms Hms (ClientEntitlementContext l)) as [c' Hc].
    exists fClientEntitlementContext. eexists. split; [reflexivity|].
    unfold store_lease_field, store_context, store_struct. rewrite Hc. reflexivity.
  - destruct (array_loop_strings elems Helems
                (match EntitlementGroupIDs l with Some x => x | None => [] end)) as [g Hg].
    exists fEntitlementGroupIDs. eexists. split; [reflexivity|].
    unfold store_lease_field, store_slice. rewrite Hg. reflexivity.
Qed.

Lemma lease_loop_wire members :
  Forall wire_lease_member members ->
  forall l, exists l',
    object_loop lease_fields store_lease_field members l None = mkResult l' None None.
Proof.
  induction 1 as [|[[key raw] v] members Hm _ IH]; intros l.
  - exists l. reflexivity.
  - destruct (store_wire_member key raw v l Hm) as (f & l1 & Hf & Hs).
    rewrite (object_loop_field _ _ _ _ _ _ _ _ _ Hf Hs). apply IH.
Qed.

(** A record of the upstream contract decodes without error. *)
Lemma wire_lease_record j : wire_lease j -> lease_record j.
Proof.
  intros (members & -> & Hm). unfold lease_record, store_lease, store_struct.
  apply lease_loop_wire. exact Hm.
Qed.

(** Solves [wire_lease_member] on a member that is given in full. *)
Ltac wire_strings :=
  repeat (constructor; [eexists; reflexivity|]); constructor.

Ltac wire_context :=
  repeat (constructor; [split; [simpl; auto 8|eexists; reflexivity]|]); constructor.

Ltac wire_member :=
  unfold wire_lease_member;
  first
    [ left; split; [reflexivity|]; do 2 eexists; split; [reflexivity|vm_compute; reflexivity]
    | right; left; split; [reflexivity|]; do 2 eexists; split;
      [reflexivity|vm_compute; reflexivity]
    | right; right; left; split; [reflexivity|vm_compute; reflexivity]
    | right; right; right; left; split; [reflexivity|vm_compute; reflexivity]
    | right; right; right; right; left; split; [reflexivity|eexists; reflexivity]
    | right; right; right; right; right; left; split; [reflexivity|];
      eexists; split; [reflexivity|wire_context]
    | right; right; right; right; right; right; split; [reflexivity|];
      eexists; split; [reflexivity|wire_strings] ].

Example two_leases_wire : Forall wire_lease (elements two_leases).
Proof.
  replace (elements two_leases)
    with (ltac:(let l := eval vm_compute in (elements two_leases) in exact l))
    by (vm_compute; reflexivity).
  repeat (constructor;
          [eexists; split; [reflexivity|repeat (constructor; [wire_member|]); constructor]|]).
  constructor.
Qed.

(** ** A malformed timestamp fails the whole decode *)

Lemma store_timestamp_stops f raw v l saved :
  (f = fCreatedTimeUTC \/ f = fLastRenewalTimeUTC) ->
  json_timestamp raw = false ->
  res_err (store_lease_field f raw v l saved) <> None.
Proof.
  intros Hf Hraw.
  assert (H : forall t, snd (TimeUTC_UnmarshalJSON t raw) <> None).
  { intros t Hnil. apply UnmarshalJSON_nil_iff in Hnil. congruence. }
  destruct Hf as [-> | ->]; simpl; apply H.
Qed.

Lemma object_loop_stops members key raw v :
  In (key, raw, v) members ->
  timestamp_field key ->
  json_timestamp raw = false ->
  forall l saved,
    res_err (object_loop lease_fields store_lease_field members l saved) <> None.
Proof.
  intros Hin Hkey Hraw.
  induction members as [|[[key' raw'] v'] members IH]; intros l saved; [destruct Hin|].
  simpl. destruct Hin as [[= -> -> ->]|Hin].
  - destruct Hkey as [-> | ->].
    + pose proof (store_timestamp_stops fCreatedTimeUTC raw v l saved (or_introl eq_refl) Hraw).
      destruct (res_err (store_lease_field fCreatedTimeUTC raw v l saved)) eqn:E;
        [now rewrite E|contradiction].
    + pose proof (store_timestamp_stops fLastRenewalTimeUTC raw v l saved (or_intror eq_refl) Hraw).
      destruct (res_err (store_lease_field fLastRenewalTimeUTC raw v l saved)) eqn:E;
        [now rewrite E|contradiction].
  - destruct (lookup_field lease_fields key') as [f|]; [|now apply IH].
    destruct (res_err (store_lease_field f raw' v' l saved)) eqn:E.
    + now rewrite E.
    + now apply IH.
Qed.

Lemma array_loop_stops {A : Type} (store : json.value -> A -> option error -> result A)
  (zero : A) (j : json.value) (items : list json.value) :
  In j items ->
  (forall x saved, res_err (store j x saved) <> None) ->
  forall cur saved, res_err (array_loop store zero items cur saved) <> None.
Proof.
  intros Hin Hj. induction items as [|j' items IH]; intros cur saved; [destruct Hin|].
  simpl. destruct cur as [|c cs].
  - destruct (res_err (store j' zero saved)) eqn:E; simpl; [discriminate|].
    destruct Hin as [->|Hin]; [now apply Hj in E|now apply IH].
  - destruct (res_err (store j' c saved)) eqn:E; simpl; [discriminate|].
    destruct Hin as [->|Hin]; [now apply Hj in E|now apply IH].
Qed.

Lemma Unmarshal_bad_timestamp b items j :
  json.scan b = Some (json.Array items) ->
  In j items ->
  bad_timestamp j ->
  exists partial err, Unmarshal store_leases b None = (partial, Some err).
Proof.
  intros Hb Hin (members & key & raw & v & -> & Hm & Hkey & Hraw).
  unfold Unmarshal. rewrite Hb. unfold store_leases, store_slice. simpl.
  pose proof (array_loop_stops store_lease ULSLease_zero (json.Object members) items Hin) as H.
  specialize (H (fun x saved => object_loop_stops members key raw v Hm Hkey Hraw x saved) [] None).
  destruct (res_err (array_loop store_lease ULSLease_zero items [] None)) as [err|];
    [|contradiction].
  eauto.
Qed.

(** C9.  When the upstream answers with status 200 and a JSON array in which
    one record has a member for [createdTimeUtc] or [lastRenewalTimeUtc]
    whose value is not a JSON string in the timestamp format, the decode as
    a whole fails whatever the other records are: [GetLeases] returns an
    error with the nil slice, and [Collect] sends up=0 alone. *)
Theorem Collect_bad_timestamp w e res b items j :
  responds w e res ->
  StatusCode res = 200%Z ->
  Body res = (b, None) ->
  json.scan b = Some (json.Array items) ->
  In j items ->
  bad_timestamp j ->
  exists err,
    GetLeases w e = (None, Some err) /\
    Collect w e = mkCollected [gauge up 0] [err] None.
Proof.
  intros Hr Hs Hb Hscan Hin Hbad.
  destruct (Unmarshal_bad_timestamp b items j Hscan Hin Hbad) as (partial & err & Hu).
  exists err.
  assert (Hget : GetLeases w e = (None, Some err)).
  { rewrite (GetLeases_decodes _ _ _ _ Hr Hs Hb), Hu. reflexivity. }
  split; [exact Hget|]. exact (Collect_failure _ _ _ _ Hget).
Qed.

Lemma Collect_bad_timestamp_witness :
  exists err,
    GetLeases (upstream (inl (ok_response bad_renewal))) exporter0 = (None, Some err) /\
    Collect (upstream (inl (ok_response bad_renewal))) exporter0 =
      mkCollected [gauge up 0] [err] None.
Proof.
  refine (Collect_bad_timestamp _ _ (ok_response bad_renewal) bad_renewal
            (elements bad_renewal) (List.nth 1 (elements bad_renewal) json.Null)
            (responds_upstream _) eq_refl eq_refl _ _ _).
  - vm_compute. reflexivity.
  - vm_compute. right. left. reflexivity.
  - exists [("floatingLeaseId", "2", json.Number "2");
            ("lastRenewalTimeUtc", "1614834367", json.Number "1614834367")],
      "lastRenewalTimeUtc", "1614834367", (json.Number "1614834367").
    split; [vm_compute; reflexivity|].
    split; [right; left; reflexivity|].
    split; [right; vm_compute; reflexivity|vm_compute; reflexivity].
Defined.

(** ** Configuration *)

Lemma envDefault_lookup environ env def :
  envDefault environ env def = effective None (environ !! env) def.
Proof. unfold envDefault, os.LookupEnv. destruct (environ !! env); reflexivity. Qed.

Lemma app_read_write p v app : app_read p (app_write p v app) = v.
Proof. destruct p; reflexivity. Qed.

Lemma app_read_write_other p q v app :
  p <> q -> app_read p (app_write q v app) = app_read p app.
Proof. destruct p, q; intros H; try reflexivity; contradiction. Qed.

Section ParseRefines.
Variable formal : gmap string app_ptr.
(** No two flags share their variable. *)
Hypothesis formal_inj :
  forall n1 n2 p, formal !! n1 = Some p -> formal !! n2 = Some p -> n1 = n2.

Lemma Parse_step_read name p n q v app :
  formal !! name = Some p ->
  formal !! n = Some q ->
  app_read p (app_write q v app) = if String.eqb n name then v else app_read p app.
Proof.
  intros Hp Hq. destruct (String.eqb_spec n name) as [->|Hne].
  - assert (q = p) by congruence. subst q. apply app_read_write.
  - apply app_read_write_other. intros ->. apply Hne. eauto.
Qed.

(** After a parse that succeeds, the variable of a flag holds the last
    value that the command line gives to the flag, or what it held before
    when the command line does not give the flag. *)
Lemma Parse_last_value name p :
  formal !! name = Some p ->
  forall k args app app' rest,
    (List.length args <= k)%nat ->
    flag.Parse app_write formal args app = inl (app', rest) ->
    app_read p app' =
      match last_value name (given args) with
      | Some v => v
      | None => app_read p app
      end.
Proof.
  intros Hp. induction k as [|k IH]; intros args app app' rest Hlen.
  - destruct args; [|simpl in Hlen; lia]. simpl. now intros [= -> _].
  - destruct args as [|s args]; [simpl; now intros [= -> _]|].
    simpl in Hlen. simpl.
    destruct (flag.flag_text s) as [[text|]|]; try (now intros [= -> _]).
    destruct (flag.bad_syntax text); [discriminate|].
    destruct (flag.split_name text) as [n value].
    destruct (formal !! n) as [q|] eqn:Hq.
    2:{ destruct (String.eqb n "help" || String.eqb n "h"); discriminate. }
    destruct value as [v|].
    + intros H. apply IH in H; [|lia]. rewrite H. simpl.
      destruct (last_value name (given args)); [reflexivity|].
      rewrite (Parse_step_read name p n q v app Hp Hq).
      now destruct (String.eqb n name).
    + destruct args as [|v args]; [discriminate|].
      intros H. apply IH in H; [|simpl in Hlen; lia]. rewrite H. simpl.
      destruct (last_value name (given args)); [reflexivity|].
      rewrite (Parse_step_read name p n q v app Hp Hq).
      now destruct (String.eqb n name).
Qed.
End ParseRefines.

Lemma CommandLine_lookup n p :
  CommandLine !! n = Some p ->
  (n = "uri" /\ p = pURI) \/ (n = "path" /\ p = pPath) \/ (n = "listen" /\ p = pListen).
Proof.
  unfold CommandLine. intros H.
  apply lookup_insert_Some in H as [[<- <-]|[_ H]]; [auto|].
  apply lookup_insert_Some in H as [[<- <-]|[_ H]]; [auto|].
  apply lookup_insert_Some in H as [[<- <-]|[_ H]]; [auto|].
  rewrite lookup_empty in H. discriminate.
Qed.

Lemma CommandLine_inj n1 n2 p :
  CommandLine !! n1 = Some p -> CommandLine !! n2 = Some p -> n1 = n2.
Proof.
  intros H1 H2.
  apply CommandLine_lookup in H1 as [[-> ->]|[[-> ->]|[-> ->]]];
    apply CommandLine_lookup in H2 as [[-> E]|[[-> E]|[-> E]]];
    (reflexivity || discriminate E).
Qed.

Lemma App_Main_flags_unfold environ args app :
  App_Main_flags environ args app =
    match flag.Parse app_write CommandLine args
            (mkApp (envDefault environ "ULS_LISTEN" ":9101")
                   (envDefault environ "ULS_PATH" "/metrics")
                   (envDefault environ "ULS_URI" "http://localhost:8080")) with
    | inl (app', rest) => Configured app' rest
    | inr flag.ErrHelp => Exit 0
    | inr (flag.failf _) => Exit 2
    end.
Proof. reflexivity. Qed.

Lemma CommandLine_listen : CommandLine !! "listen" = Some pListen.
Proof. reflexivity. Qed.

Lemma CommandLine_path : CommandLine !! "path" = Some pPath.
Proof. reflexivity. Qed.

Lemma CommandLine_uri : CommandLine !! "uri" = Some pURI.
Proof. reflexivity. Qed.

(** C7.  When [Main] gets past [flag.Parse], each of the three settings holds
    the value that the command line gives to its flag ([-listen], [-path],
    [-uri]) when the flag is given; else the value of its environment
    variable ([ULS_LISTEN], [ULS_PATH], [ULS_URI]) when the variable is set;
    else its hard-coded default. *)
Theorem Main_flag_env_default environ args app0 app rest :
  App_Main_flags environ args app0 = Configured app rest ->
  Listen app =
    effective (last_value "listen" (given args)) (environ !! "ULS_LISTEN") ":9101" /\
  Path app =
    effective (last_value "path" (given args)) (environ !! "ULS_PATH") "/metrics" /\
  URI app =
    effective (last_value "uri" (given args)) (environ !! "ULS_URI") "http://localhost:8080".
Proof.
  rewrite App_Main_flags_unfold.
  destruct (flag.Parse app_write CommandLine args _) as [[app' rest']|[|msg]] eqn:HP;
    try discriminate.
  intros [= -> ->].
  pose proof (fun name p H =>
                Parse_last_value CommandLine CommandLine_inj name p H
                  (List.length args) args _ app rest (Nat.le_refl _) HP) as Hread.
  pose proof (Hread "listen" pListen CommandLine_listen) as Hl.
  pose proof (Hread "path" pPath CommandLine_path) as Hp.
  pose proof (Hread "uri" pURI CommandLine_uri) as Hu.
  simpl in Hl, Hp, Hu. rewrite !envDefault_lookup in *.
  repeat split.
  - rewrite Hl. now destruct (last_value "listen" (given args)).
  - rewrite Hp. now destruct (last_value "path" (given args)).
  - rewrite Hu. now destruct (last_value "uri" (given args)).
Qed.

Lemma Main_flag_env_default_witness :
  App_Main_flags environ0 args0 (mkApp EmptyString EmptyString EmptyString)
    = Configured (mkApp ":9101" "/probe" "http://b") ["extra"]
  /\ Listen (mkApp ":9101" "/probe" "http://b") = ":9101"
  /\ Path (mkApp ":9101" "/probe" "http://b") = "/probe"
  /\ URI (mkApp ":9101" "/probe" "http://b") = "http://b".
Proof.
  split; [vm_compute; reflexivity|].
  exact (Main_flag_env_default environ0 args0 (mkApp EmptyString EmptyString EmptyString)
           (mkApp ":9101" "/probe" "http://b") ["extra"] eq_refl).
Defined.

(** C10.  [envDefault] returns the value of the environment variable as soon
    as the variable is present, the empty value included; the default is
    used only for a variable that is absent.  With [ULS_LISTEN] present and
    no flag on the command line, the listen address is the value of the
    variable. *)
Theorem envDefault_presence environ env def v :
  environ !! env = Some v ->
  envDefault environ env def = v /\
  envDefault (delete env environ) env def = def /\
  (env = "ULS_LISTEN" ->
   forall app0, exists app,
     App_Main_flags environ [] app0 = Configured app [] /\ Listen app = v).
Proof.
  intros H. repeat split.
  - unfold envDefault, os.LookupEnv. now rewrite H.
  - unfold envDefault, os.LookupEnv. now rewrite lookup_delete_eq.
  - intros -> app0. rewrite App_Main_flags_unfold. simpl.
    eexists. split; [reflexivity|]. simpl.
    unfold envDefault, os.LookupEnv. now rewrite H.
Qed.

Lemma envDefault_presence_witness :
  envDefault listen_empty "ULS_LISTEN" ":9101" = EmptyString /\
  exists app,
    App_Main_flags listen_empty [] (mkApp EmptyString EmptyString EmptyString)
      = Configured app [] /\
    Listen app = EmptyString.
Proof.
  assert (H : listen_empty !! "ULS_LISTEN" = Some EmptyString) by (vm_compute; reflexivity).
  destruct (envDefault_presence listen_empty "ULS_LISTEN" ":9101" EmptyString H)
    as (H1 & _ & H3).
  split; [exact H1|]. exact (H3 eq_refl (mkApp EmptyString EmptyString EmptyString)).
Defined.

(** * Further properties *)

(** ** What [Collect] sends *)

(** X1.  Whatever the upstream does, [Collect] does not panic, and it does
    one of two things: it sends the gauge [up] with value 0 alone and logs
    one error, or it sends [up] with value 1 followed by [leases] with a
    value that is not negative, and logs nothing. *)
Theorem Collect_two_shapes w e :
  panicked (Collect w e) = None /\
  ((sent (Collect w e) = [gauge up 0] /\ List.length (logged (Collect w e)) = 1%nat) \/
   (exists n, (0 <= n)%Z /\
              sent (Collect w e) = [gauge up 1; gauge lease n] /\
              logged (Collect w e) = [])).
Proof.
  destruct (GetLeases w e) as [leases [err|]] eqn:H.
  - rewrite (Collect_failure _ _ _ _ H). split; [reflexivity|]. left. split; reflexivity.
  - rewrite (Collect_success _ _ _ H). split; [reflexivity|]. right.
    exists (len leases). split; [|split; reflexivity].
    destruct leases; simpl; lia.
Qed.

(** X2.  Every metric that [Collect] sends is a gauge without label values
    whose descriptor is one of those that [Describe] sends, and no two
    metrics of one collection have the same descriptor. *)
Theorem Collect_within_Describe w e :
  Forall (fun m => In (prometheus.desc m) (Describe e) /\
                   prometheus.valType m = prometheus.GaugeValue /\
                   prometheus.labelValues m = [])
         (sent (Collect w e)) /\
  List.NoDup (List.map prometheus.desc (sent (Collect w e))).
Proof.
  destruct (GetLeases w e) as [leases [err|]] eqn:H.
  - rewrite (Collect_failure _ _ _ _ H). simpl. split.
    + repeat constructor.
    + repeat constructor. intros [].
  - rewrite (Collect_success _ _ _ H). simpl. split.
    + constructor; [|constructor; [|constructor]].
      * split; [left; reflexivity|split; reflexivity].
      * split; [right; left; reflexivity|split; reflexivity].
    + constructor; [|constructor; [|constructor]].
      * intros [E|[]]. discriminate E.
      * intros [].
Qed.

(** ** The saved error stays *)

Lemma saveError_kept e e' : saveError (Some e) e' = Some e.
Proof. reflexivity. Qed.

Lemma store_string_saved v x e : res_saved (store_string v x (Some e)) = Some e.
Proof. destruct v; reflexivity. Qed.

Lemma store_bool_saved v x e : res_saved (store_bool v x (Some e)) = Some e.
Proof. destruct v; reflexivity. Qed.

Lemma store_int_saved v x e : res_saved (store_int v x (Some e)) = Some e.
Proof. destruct v; try reflexivity. simpl. destruct (ParseInt literal); reflexivity. Qed.

Lemma store_text_saved {A : Type} GoType (f : string -> A + error) v x e :
  res_saved (store_text GoType f v x (Some e)) = Some e.
Proof. destruct v; try reflexivity. simpl. destruct (f s); reflexivity. Qed.

Lemma array_loop_saved {A : Type} (store : json.value -> A -> option error -> result A)
  (zero : A) :
  (forall j x e, res_saved (store j x (Some e)) = Some e) ->
  forall elems cur e, res_saved (array_loop store zero elems cur (Some e)) = Some e.
Proof.
  intros Hs. induction elems as [|j elems IH]; intros cur e; [reflexivity|].
  simpl. destruct cur as [|c cs].
  - pose proof (Hs j zero e) as H.
    destruct (res_err (store j zero (Some e))); simpl; [exact H|]. rewrite H. apply IH.
  - pose proof (Hs j c e) as H.
    destruct (res_err (store j c (Some e))); simpl; [exact H|]. rewrite H. apply IH.
Qed.

Lemma object_loop_saved {S F : Type} (fields : list (string * F))
  (store : F -> string -> json.value -> S -> option error -> result S) :
  (forall f raw v x e, res_saved (store f raw v x (Some e)) = Some e) ->
  forall members cur e, res_saved (object_loop fields store members cur (Some e)) = Some e.
Proof.
  intros Hs. induction members as [|[[key raw] v] members IH]; intros cur e; [reflexivity|].
  simpl. destruct (lookup_field fields key) as [f|]; [|apply IH].
  pose proof (Hs f raw v cur e) as H.
  destruct (res_err (store f raw v cur (Some e))); [exact H|]. rewrite H. apply IH.
Qed.

Lemma store_slice_saved {A : Type} GoType
  (store : json.value -> A -> option error -> result A) (zero : A) :
  (forall j x e, res_saved (store j x (Some e)) = Some e) ->
  forall v cur e, res_saved (store_slice GoType store zero v cur (Some e)) = Some e.
Proof.
  intros Hs v cur e. destruct v; try reflexivity. simpl. now apply array_loop_saved.
Qed.

Lemma store_struct_saved {S F : Type} GoType (fields : list (string * F))
  (store : F -> string -> json.value -> S -> option error -> result S) :
  (forall f raw v x e, res_saved (store f raw v x (Some e)) = Some e) ->
  forall v cur e, res_saved (store_struct GoType fields store v cur (Some e)) = Some e.
Proof.
  intros Hs v cur e. destruct v; try reflexivity. simpl. now apply object_loop_saved.
Qed.

Lemma store_context_field_saved f raw v c e :
  res_saved (store_context_field f raw v c (Some e)) = Some e.
Proof. destruct f; simpl; apply store_string_saved. Qed.

Lemma store_lease_field_saved f raw v l e :
  res_saved (store_lease_field f raw v l (Some e)) = Some e.
Proof.
  destruct f; simpl.
  - apply store_int_saved.
  - apply store_text_saved.
  - reflexivity.
  - reflexivity.
  - apply store_bool_saved.
  - apply store_struct_saved. apply store_context_field_saved.
  - apply store_slice_saved. apply store_string_saved.
Qed.

Lemma store_lease_saved v l e : res_saved (store_lease v l (Some e)) = Some e.
Proof. apply store_struct_saved. apply store_lease_field_saved. Qed.

(** ** What a sample of [leases] tells *)

(** When the loop over the array ends without any error, every element was
    stored without error and the slice has the length of the array. *)
Lemma array_loop_clean items : forall leases saved,
  array_loop store_lease ULSLease_zero items [] saved = mkResult leases None None ->
  Forall lease_record items /\ List.length leases = List.length items.
Proof.
  induction items as [|j items IH]; intros leases saved; simpl.
  - intros [= <- _]. split; [constructor|reflexivity].
  - destruct (store_lease j ULSLease_zero saved) as [l err saved1] eqn:Hj. simpl.
    destruct err as [e|]; [discriminate|].
    destruct (array_loop store_lease ULSLease_zero items [] saved1)
      as [ls err2 saved2] eqn:Hrest.
    unfold map_result. simpl. intros [= <- -> ->].
    assert (saved1 = None) as ->.
    { destruct saved1 as [e|]; [|reflexivity].
      pose proof (array_loop_saved store_lease ULSLease_zero store_lease_saved items [] e) as H.
      rewrite Hrest in H. discriminate H. }
    assert (saved = None) as ->.
    { destruct saved as [e|]; [|reflexivity].
      pose proof (store_lease_saved j ULSLease_zero e) as H. rewrite Hj in H. discriminate H. }
    destruct (IH _ _ Hrest) as [Hrec Hlen]. split.
    + constructor; [exists l; exact Hj|exact Hrec].
    + simpl. now rewrite Hlen.
Qed.

Lemma Unmarshal_clean b leases :
  Unmarshal store_leases b None = (leases, None) -> denotes_leases b (len leases).
Proof.
  unfold Unmarshal, denotes_leases.
  destruct (json.scan b) as [v|]; [|discriminate].
  destruct v; try discriminate.
  - intros [= <-]. left. split; reflexivity.
  - unfold store_leases, store_slice.
    destruct (array_loop store_lease ULSLease_zero elems [] None) as [ls err saved] eqn:Hl.
    unfold map_result. simpl. intros [= <- H].
    assert (err = None /\ saved = None) as [-> ->].
    { destruct err; [discriminate|]. split; [reflexivity|exact H]. }
    destruct (array_loop_clean _ _ _ Hl) as [Hrec Hlen].
    right. exists elems. split; [reflexivity|]. split; [exact Hrec|].
    simpl. now rewrite Hlen.
Qed.

(** X3.  [Collect] sends the sample [leases] with value [n] exactly when the
    upstream answered with status 200 and a body, read to its end, that
    denotes [n] leases: null with [n] 0, or an array of [n] lease records. *)
Theorem leases_sample_iff w e n :
  In (gauge lease n) (sent (Collect w e)) <->
  exists res b,
    responds w e res /\ StatusCode res = 200%Z /\ Body res = (b, None) /\
    denotes_leases b n.
Proof.
  split.
  - destruct (GetLeases w e) as [leases [err|]] eqn:H.
    + rewrite (Collect_failure _ _ _ _ H). simpl. intros [E|[]]. discriminate E.
    + rewrite (Collect_success _ _ _ H). simpl. intros [E|[E|[]]]; [discriminate E|].
      injection E as <-. revert H. unfold GetLeases.
      destruct (url_Parse w (BaseURL e) "/v1/admin/lease") as [leaseURL|] eqn:Hu;
        [|discriminate].
      destruct (http_Get w (URL_String leaseURL)) as [res|] eqn:Hg; [|discriminate].
      destruct (Z.eqb_spec (StatusCode res) StatusOK) as [Hs|]; simpl; [|discriminate].
      destruct (Body res) as [b [?|]] eqn:Hb; [discriminate|].
      destruct (Unmarshal store_leases b None) as [ls [?|]] eqn:Hd; [discriminate|].
      intros [= ->]. exists res, b. repeat split; try assumption.
      * exists leaseURL. split; assumption.
      * now apply Unmarshal_clean.
  - intros (res & b & Hr & Hs & Hb & Hd).
    assert (Hget : exists leases, GetLeases w e = (leases, None) /\ len leases = n).
    { rewrite (GetLeases_decodes _ _ _ _ Hr Hs Hb).
      destruct Hd as [[Hnull ->]|(items & Hscan & Hrec & ->)].
      - exists None. unfold Unmarshal. rewrite Hnull. split; reflexivity.
      - destruct (Unmarshal_records b items Hscan Hrec) as (leases & Hu & Hlen).
        exists (Some leases). rewrite Hu. split; [reflexivity|]. simpl. now rewrite Hlen. }
    destruct Hget as (leases & Hget & <-).
    rewrite (Collect_success _ _ _ Hget). simpl. right. left. reflexivity.
Qed.

(** ** The errors of [GetLeases] *)

(** X4.  [GetLeases] returns an error exactly in the five failures of the
    fetch (resolution of the address, transport, status, reading of the
    body, decoding), with the error of the failure and the nil slice. *)
Theorem GetLeases_error_iff w e leases err :
  GetLeases w e = (leases, Some err) <-> leases = None /\ fetch_failure w e err.
Proof.
  split.
  - intros H. pose proof (GetLeases_error_fetch_failure _ _ _ _ H) as Hf.
    split; [|exact Hf]. rewrite (fetch_failure_GetLeases _ _ _ Hf) in H. congruence.
  - intros [-> Hf]. now apply fetch_failure_GetLeases.
Qed.

Lemma Parse_error layout value e :
  time.Parse layout value = inr e -> e = ParseError layout value.
Proof.
  unfold time.Parse. destruct (time.chunks 0 EmptyString layout) as [cs tail].
  destruct (time.parse_chunks cs tail _ value) as [t|]; [|now intros [= <-]].
  destruct (_ || _); [now intros [= <-]|discriminate].
Qed.

(** X5.  The error of [UnmarshalJSON] by the bytes it is given: a syntax
    error for bytes that are not JSON; a parse error on the empty text for
    null; the verdict of [time.Parse] for a string; and a type mismatch that
    names the kind for a boolean, a number, an array or an object. *)
Theorem UnmarshalJSON_error_by_kind t b :
  snd (TimeUTC_UnmarshalJSON t b) =
    match json.scan b with
    | None => Some SyntaxError
    | Some json.Null => Some (ParseError TimeUTCFormat EmptyString)
    | Some (json.Str s) =>
        match time.Parse TimeUTCFormat s with
        | inl _ => None
        | inr _ => Some (ParseError TimeUTCFormat s)
        end
    | Some v => Some (UnmarshalTypeError (kind_name v) "string")
    end.
Proof.
  unfold TimeUTC_UnmarshalJSON, TimeUTC_UnmarshalJSON_body, Unmarshal. simpl.
  destruct (json.scan b) as [[| | |s| |]|]; try reflexivity.
  simpl. destruct (time.Parse TimeUTCFormat s) as [parsed|e] eqn:Hp; [reflexivity|].
  simpl. now rewrite (Parse_error _ _ _ Hp).
Qed.

(** X6.  When the upstream answers with status 200 and a body that denotes
    neither null nor an array, [GetLeases] fails: with a syntax error when
    the body is not JSON, else with a type mismatch that names the kind of
    the value; [Collect] then sends up=0 alone. *)
Theorem GetLeases_body_not_array w e res b :
  responds w e res ->
  StatusCode res = 200%Z ->
  Body res = (b, None) ->
  json.scan b <> Some json.Null ->
  (forall items, json.scan b <> Some (json.Array items)) ->
  GetLeases w e = (None, Some (not_array_error b)) /\
  sent (Collect w e) = [gauge up 0].
Proof.
  intros Hr Hs Hb Hnull Harr.
  assert (Hget : GetLeases w e = (None, Some (not_array_error b))).
  { rewrite (GetLeases_decodes _ _ _ _ Hr Hs Hb). unfold Unmarshal, not_array_error.
    destruct (json.scan b) as [[| | | |items|]|]; try reflexivity.
    - now contradiction Hnull.
    - now contradiction (Harr items). }
  split; [exact Hget|]. now rewrite (Collect_failure _ _ _ _ Hget).
Qed.

Lemma GetLeases_body_not_array_witness :
  GetLeases (upstream (inl (ok_response wrapped_leases))) exporter0
  = (None, Some (UnmarshalTypeError "object" "[]main.ULSLease")).
Proof.
  refine (proj1 (GetLeases_body_not_array _ _ (ok_response wrapped_leases) wrapped_leases
                   (responds_upstream _) eq_refl eq_refl _ _)).
  - vm_compute. discriminate.
  - intros items. vm_compute. discriminate.
Defined.

(** ** A value of the wrong type fails the fetch *)

Lemma store_mismatch_saved f raw v l saved :
  field_takes f v = false ->
  res_saved (store_lease_field f raw v l saved) <> None.
Proof.
  assert (Hs : forall e, saveError saved e <> None) by (destruct saved; discriminate).
  destruct f, v; simpl; try discriminate; try (intros _; apply Hs).
  destruct (ParseInt literal); [discriminate|]. intros _. apply Hs.
Qed.

Lemma object_loop_mismatch members key raw v f :
  In (key, raw, v) members ->
  lookup_field lease_fields key = Some f ->
  field_takes f v = false ->
  forall l saved, fails (object_loop lease_fields store_lease_field members l saved).
Proof.
  intros Hin Hf Hv.
  induction members as [|[[key' raw'] v'] members IH]; intros l saved; [destruct Hin|].
  simpl. destruct Hin as [[= -> -> ->]|Hin].
  - rewrite Hf. pose proof (store_mismatch_saved f raw v l saved Hv) as Hs.
    destruct (res_err (store_lease_field f raw v l saved)) eqn:E.
    + left. rewrite E. discriminate.
    + right. destruct (res_saved (store_lease_field f raw v l saved)) as [e|];
        [|contradiction].
      rewrite (object_loop_saved _ _ store_lease_field_saved). discriminate.
  - destruct (lookup_field lease_fields key') as [f'|]; [|now apply IH].
    destruct (res_err (store_lease_field f' raw' v' l saved)) eqn:E.
    + left. rewrite E. discriminate.
    + now apply IH.
Qed.

Lemma store_lease_ill_typed j :
  ill_typed j -> forall l saved, fails (store_lease j l saved).
Proof.
  assert (Hs : forall saved e, saveError saved e <> None) by (intros [|]; discriminate).
  destruct j; simpl; intros H l saved; try (right; apply Hs).
  - destruct H.
  - destruct H as (key & raw & v & f & Hin & Hf & Hv).
    exact (object_loop_mismatch members key raw v f Hin Hf Hv l saved).
Qed.

Lemma array_loop_fails items j :
  In j items ->
  (forall l saved, fails (store_lease j l saved)) ->
  forall cur saved, fails (array_loop store_lease ULSLease_zero items cur saved).
Proof.
  intros Hin Hj. induction items as [|j' items IH]; intros cur saved; [destruct Hin|].
  simpl.
  set (x := match cur with c :: _ => c | [] => ULSLease_zero end).
  set (rest := match cur with _ :: cs => cs | [] => [] end).
  replace (match cur with c :: cs => (c, cs) | [] => (ULSLease_zero, []) end)
    with (x, rest) by (destruct cur; reflexivity).
  destruct (res_err (store_lease j' x saved)) eqn:E.
  - left. simpl. discriminate.
  - destruct Hin as [->|Hin].
    + destruct (Hj x saved) as [H|H]; [congruence|].
      destruct (res_saved (store_lease j x saved)) as [e|]; [|contradiction].
      right. unfold map_result. simpl.
      rewrite (array_loop_saved _ _ store_lease_saved). discriminate.
    + destruct (IH Hin rest (res_saved (store_lease j' x saved))) as [H|H];
        [left|right]; exact H.
Qed.

(** X7.  When the upstream answers with status 200 and a JSON array of which
    one element cannot be a lease for its types (it is a text, a number, a
    boolean or an array; or it is an object with a member whose value its
    field does not take), [GetLeases] returns an error with the nil slice,
    whatever the other elements are, and [Collect] sends up=0 alone. *)
Theorem GetLeases_ill_typed_element w e res b items j :
  responds w e res ->
  StatusCode res = 200%Z ->
  Body res = (b, None) ->
  json.scan b = Some (json.Array items) ->
  In j items ->
  ill_typed j ->
  exists err,
    GetLeases w e = (None, Some err) /\
    Collect w e = mkCollected [gauge up 0] [err] None.
Proof.
  intros Hr Hs Hb Hscan Hin Hj.
  pose proof (array_loop_fails items j Hin (store_lease_ill_typed j Hj) [] None) as Hf.
  assert (Hget : exists err, GetLeases w e = (None, Some err)).
  { rewrite (GetLeases_decodes _ _ _ _ Hr Hs Hb). unfold Unmarshal. rewrite Hscan.
    unfold store_leases, store_slice.
    destruct (array_loop store_lease ULSLease_zero items [] None) as [ls err saved].
    unfold fails in Hf. unfold map_result. simpl in *.
    destruct err as [e1|]; [eauto|]. destruct saved as [e2|]; [eauto|].
    destruct Hf as [H|H]; now contradiction H. }
  destruct Hget as [err Hget]. exists err. split; [exact Hget|].
  exact (Collect_failure _ _ _ _ Hget).
Qed.

Lemma GetLeases_ill_typed_element_witness :
  exists err,
    GetLeases (upstream (inl (ok_response bad_revoked))) exporter0 = (None, Some err) /\
    Collect (upstream (inl (ok_response bad_revoked))) exporter0
    = mkCollected [gauge up 0] [err] None.
Proof.
  refine (GetLeases_ill_typed_element _ _ (ok_response bad_revoked) bad_revoked
            (elements bad_revoked) (List.nth 1 (elements bad_revoked) json.Null)
            (responds_upstream _) eq_refl eq_refl _ _ _).
  - vm_compute. reflexivity.
  - vm_compute. right. left. reflexivity.
  - replace (List.nth 1 (elements bad_revoked) json.Null)
      with (json.Object [("floatingLeaseId", "2", json.Number "2");
                         ("isRevoked", dq "'yes'", json.Str "yes")])
      by (vm_compute; reflexivity).
    exists "isRevoked", (dq "'yes'"), (json.Str "yes"), fIsRevoked.
    split; [right; left; reflexivity|]. split; reflexivity.
Defined.

(** ** Members that name no field, and the case of the keys *)

Lemma object_loop_skip {S F : Type} (fields : list (string * F))
  (store : F -> string -> json.value -> S -> option error -> result S)
  key raw v before after :
  lookup_field fields key = None ->
  forall cur saved,
    object_loop fields store (before ++ (key, raw, v) :: after) cur saved
    = object_loop fields store (before ++ after) cur saved.
Proof.
  intros Hk. induction before as [|[[k r] x] before IH]; intros cur saved; simpl.
  - now rewrite Hk.
  - destruct (lookup_field fields k); [|apply IH].
    destruct (res_err (store _ r x cur saved)); [reflexivity|apply IH].
Qed.

(** X8.  A member whose key names no field of [ULSLease], neither exactly
    nor after folding, is skipped: the record decodes as it does without the
    member, to the same lease and the same errors. *)
Theorem unknown_member_skipped key raw v before after l saved :
  lookup_field lease_fields key = None ->
  store_lease (json.Object (before ++ (key, raw, v) :: after)) l saved
  = store_lease (json.Object (before ++ after)) l saved.
Proof. intros Hk. unfold store_lease, store_struct. now apply object_loop_skip. Qed.

Lemma unknown_member_skipped_witness :
  store_lease (json.Object ([("isRevoked", "true", json.Bool true)]
                            ++ ("leaseOwner", "7", json.Number "7") :: []))
    ULSLease_zero None
  = store_lease (json.Object ([("isRevoked", "true", json.Bool true)] ++ []))
      ULSLease_zero None.
Proof.
  apply (unknown_member_skipped "leaseOwner" "7" (json.Number "7")
           [("isRevoked", "true", json.Bool true)] [] ULSLease_zero None).
  vm_compute. reflexivity.
Defined.

(** The field of a key is the first field whose folded name is the folded
    key: an exact match is such a field, since no two fields of [ULSLease]
    fold to the same name. *)
Lemma lookup_lease_field_folded key :
  lookup_field lease_fields key
  = option_map snd
      (List.find (fun f => String.eqb (foldName (fst f)) (foldName key)) lease_fields).
Proof.
  unfold lookup_field, lease_fields. cbn [List.find fst snd].
  repeat match goal with
         | |- context [String.eqb ?name key] =>
             destruct (String.eqb_spec name key) as [<-|_]; [reflexivity|]
         end.
  reflexivity.
Qed.

Lemma object_loop_rename {S F : Type} (fields : list (string * F))
  (store : F -> string -> json.value -> S -> option error -> result S)
  key key' raw v before after :
  lookup_field fields key = lookup_field fields key' ->
  forall cur saved,
    object_loop fields store (before ++ (key, raw, v) :: after) cur saved
    = object_loop fields store (before ++ (key', raw, v) :: after) cur saved.
Proof.
  intros Hk. induction before as [|[[k r] x] before IH]; intros cur saved; simpl.
  - now rewrite Hk.
  - destruct (lookup_field fields k); [|apply IH].
    destruct (res_err (store _ r x cur saved)); [reflexivity|apply IH].
Qed.

(** X9.  The keys of a record are matched without regard to case: two keys
    with the same folding name the same field, and a record decodes to the
    same lease and the same errors when a key is replaced by one with the
    same folding. *)
Theorem member_key_folded key key' raw v before after l saved :
  foldName key = foldName key' ->
  lookup_field lease_fields key = lookup_field lease_fields key' /\
  store_lease (json.Object (before ++ (key, raw, v) :: after)) l saved
  = store_lease (json.Object (before ++ (key', raw, v) :: after)) l saved.
Proof.
  intros Hk.
  assert (H : lookup_field lease_fields key = lookup_field lease_fields key').
  { rewrite !lookup_lease_field_folded. now rewrite Hk. }
  split; [exact H|]. unfold store_lease, store_struct. now apply object_loop_rename.
Qed.

Lemma member_key_folded_witness :
  lookup_field lease_fields "FLOATINGLEASEID" = lookup_field lease_fields "floatingLeaseId" /\
  store_lease (json.Object ([] ++ ("FLOATINGLEASEID", "7", json.Number "7") :: []))
    ULSLease_zero None
  = store_lease (json.Object ([] ++ ("floatingLeaseId", "7", json.Number "7") :: []))
      ULSLease_zero None.
Proof.
  apply (member_key_folded "FLOATINGLEASEID" "floatingLeaseId" "7" (json.Number "7")
           [] [] ULSLease_zero None).
  vm_compute. reflexivity.
Defined.
(** ** Registration *)

Lemma check_descs_exporter r e :
  prometheus.dimHashesByName r !! "uls_up" = None ->
  prometheus.dimHashesByName r !! "uls_leases" = None ->
  prometheus.desc_id up ∉ prometheus.descIDs r ->
  prometheus.desc_id lease ∉ prometheus.descIDs r ->
  prometheus.check_descs r (Describe e) ∅ ∅ None
  = inr (exporter_ids,
         <["uls_leases" := prometheus.desc_dim lease]>
           (<["uls_up" := prometheus.desc_dim up]> ∅), None).
Proof.
  intros Hu Hl Hiu Hil. unfold Describe. cbn [prometheus.check_descs].
  change (prometheus.err up) with (@None error).
  change (prometheus.err lease) with (@None error).
  change (prometheus.fqName up) with "uls_up".
  change (prometheus.fqName lease) with "uls_leases".
  cbv iota. rewrite Hu, Hl.
  rewrite (bool_decide_eq_false_2 _ Hiu), (bool_decide_eq_false_2 _ Hil).
  rewrite lookup_empty. rewrite lookup_insert_ne by discriminate. rewrite lookup_empty.
  reflexivity.
Qed.
Lemma exporter_ids_nonempty : exporter_ids <> ∅.
Proof. unfold exporter_ids. set_solver. Qed.

Lemma check_descs_registered r e dims :
  exporter_ids ⊆ prometheus.descIDs r ->
  prometheus.dimHashesByName r !! "uls_up" = Some (prometheus.desc_dim up) ->
  prometheus.dimHashesByName r !! "uls_leases" = Some (prometheus.desc_dim lease) ->
  prometheus.check_descs r (Describe e) ∅ dims None = inr (exporter_ids, dims, Some lease).
Proof.
  intros Hsub Hu Hl. unfold Describe. cbn [prometheus.check_descs].
  change (prometheus.err up) with (@None error).
  change (prometheus.err lease) with (@None error).
  change (prometheus.fqName up) with "uls_up".
  change (prometheus.fqName lease) with "uls_leases".
  cbv iota. rewrite Hu, Hl.
  assert (Hiu : prometheus.desc_id up ∈ prometheus.descIDs r).
  { apply Hsub. unfold exporter_ids. apply elem_of_union_r, elem_of_union_l.
    now apply elem_of_singleton. }
  assert (Hil : prometheus.desc_id lease ∈ prometheus.descIDs r).
  { apply Hsub. unfold exporter_ids. apply elem_of_union_l. now apply elem_of_singleton. }
  rewrite (bool_decide_eq_true_2 _ Hiu), (bool_decide_eq_true_2 _ Hil).
  rewrite !bool_decide_eq_true_2 by reflexivity. reflexivity.
Qed.

(** X10.  On a registry that holds no descriptor named [uls_up] or
    [uls_leases] and not the exporter itself, [Register] takes the exporter:
    its two descriptors are valid and fit each other, so the error is nil,
    and the registry then holds the two identities.  Registering the
    exporter once more gives [AlreadyRegisteredError] and leaves the registry
    as it is. *)
Theorem Register_exporter r e :
  prometheus.dimHashesByName r !! "uls_up" = None ->
  prometheus.dimHashesByName r !! "uls_leases" = None ->
  prometheus.desc_id up ∉ prometheus.descIDs r ->
  prometheus.desc_id lease ∉ prometheus.descIDs r ->
  exporter_ids ∉ prometheus.collectorsByID r ->
  exists r',
    prometheus.Register r (Describe e) = (r', None) /\
    prometheus.descIDs r' = exporter_ids ∪ prometheus.descIDs r /\
    prometheus.collectorsByID r' = exporter_ids :: prometheus.collectorsByID r /\
    prometheus.Register r' (Describe e) = (r', Some prometheus.AlreadyRegisteredError).
Proof.
  intros Hu Hl Hiu Hil Hc. eexists. split; [|split; [|split]].
  - unfold prometheus.Register. rewrite (check_descs_exporter r e Hu Hl Hiu Hil).
    rewrite (bool_decide_eq_false_2 _ exporter_ids_nonempty).
    rewrite (bool_decide_eq_false_2 _ Hc). reflexivity.
  - reflexivity.
  - reflexivity.
  - unfold prometheus.Register. rewrite check_descs_registered.
    + rewrite (bool_decide_eq_false_2 _ exporter_ids_nonempty).
      rewrite bool_decide_eq_true_2; [reflexivity|]. simpl. left.
    + simpl. apply union_subseteq_l.
    + simpl. apply lookup_union_Some_l. rewrite lookup_insert_ne by discriminate.
      apply lookup_insert_eq.
    + simpl. apply lookup_union_Some_l. apply lookup_insert_eq.
Qed.

Lemma Register_exporter_witness :
  exists r',
    prometheus.Register empty_registry (Describe exporter0) = (r', None) /\
    prometheus.Register r' (Describe exporter0) = (r', Some prometheus.AlreadyRegisteredError).
Proof.
  destruct (Register_exporter empty_registry exporter0) as (r' & H1 & _ & _ & H2).
  - vm_compute. reflexivity.
  - vm_compute. reflexivity.
  - simpl. apply not_elem_of_empty.
  - simpl. apply not_elem_of_empty.
  - simpl. apply not_elem_of_nil.
  - exists r'. split; assumption.
Defined.

(** ** [Main] and [main] *)

(** The settings after a parse that succeeds, as one record. *)
Lemma configured_settings environ args app0 app rest :
  App_Main_flags environ args app0 = Configured app rest -> app = settings environ args.
Proof.
  rewrite App_Main_flags_unfold.
  destruct (flag.Parse app_write CommandLine args _) as [[app' rest']|[|msg]] eqn:HP;
    try discriminate.
  intros [= -> ->].
  pose proof (fun name p H =>
                Parse_last_value CommandLine CommandLine_inj name p H
                  (List.length args) args _ app rest (Nat.le_refl _) HP) as Hread.
  pose proof (Hread "listen" pListen CommandLine_listen) as Hl.
  pose proof (Hread "path" pPath CommandLine_path) as Hp.
  pose proof (Hread "uri" pURI CommandLine_uri) as Hu.
  simpl in Hl, Hp, Hu. rewrite !envDefault_lookup in *.
  destruct app as [l p u]. simpl in *. unfold settings. f_equal.
  - rewrite Hl. now destruct (last_value "listen" (given args)).
  - rewrite Hp. now destruct (last_value "path" (given args)).
  - rewrite Hu. now destruct (last_value "uri" (given args)).
Qed.

(** X11.  [Main] listens only after all of this: the command line was read
    without error; [url.Parse] took the address of the upstream that the
    settings give; the registry took the exporter built from it; and the
    handler was set on the path that the settings give.  The address it
    listens on is the one that the settings give. *)
Theorem Main_listens_as_configured h environ args app0 out trace addr :
  App_Main h environ args app0 = (out, trace) ->
  In (Listening addr) trace ->
  exists exporter r,
    trace = [Registered exporter r; Handled (Path (settings environ args)); Listening addr] /\
    addr = Listen (settings environ args) /\
    url_Parse_text h (URI (settings environ args)) = inl (BaseURL exporter) /\
    prometheus.Register (DefaultRegisterer h) (Describe exporter) = (r, None) /\
    pattern_ok h (Path (settings environ args)) = true.
Proof.
  unfold App_Main.
  destruct (App_Main_flags environ args app0) as [app rest|code|] eqn:Hflags.
  2:{ intros [= _ <-] []. }
  2:{ intros [= _ <-] []. }
  apply configured_settings in Hflags. subst app.
  unfold App_Main_serve, NewULSExporter.
  destruct (url_Parse_text h (URI (settings environ args))) as [u|err] eqn:Hu.
  2:{ intros [= _ <-] []. }
  destruct (prometheus.Register (DefaultRegisterer h) (Describe (mkExporter u)))
    as [r [err|]] eqn:Hr.
  { intros [= _ <-] []. }
  destruct (pattern_ok h (Path (settings environ args))) eqn:Hp.
  2:{ intros [= _ <-] [E|[]]. discriminate E. }
  destruct (ListenAndServe h (Listen (settings environ args)));
    intros [= _ <-] [E|[E|[E|[]]]]; try discriminate E; injection E as <-;
    exists (mkExporter u), r; repeat split; (assumption || reflexivity).
Qed.

Lemma Main_listens_as_configured_witness :
  exists exporter r,
    snd (App_Main host0 environ0 args0 (mkApp EmptyString EmptyString EmptyString))
    = [Registered exporter r; Handled "/probe"; Listening ":9101"] /\
    BaseURL exporter = mkURL "http://b".
Proof.
  destruct (Main_listens_as_configured host0 environ0 args0
              (mkApp EmptyString EmptyString EmptyString)
              (fst (App_Main host0 environ0 args0 (mkApp EmptyString EmptyString EmptyString)))
              (snd (App_Main host0 environ0 args0 (mkApp EmptyString EmptyString EmptyString)))
              ":9101")
    as (exporter & r & Ht & _ & Hu & _).
  - apply surjective_pairing.
  - vm_compute. right. right. left. reflexivity.
  - exists exporter, r. split; [exact Ht|]. injection Hu as Hu. now rewrite <- Hu.
Defined.

(** X12.  When [Main] returns an error of [NewULSExporter] or of
    [Register], it has done nothing to the outside: no registration took
    effect, no handler was set and no address was listened on.  An error of
    the server is returned only after listening. *)
Theorem Main_error_effects h environ args app0 err trace :
  App_Main h environ args app0 = (Returns err, trace) ->
  match err with
  | ExporterError e =>
      trace = [] /\ url_Parse_text h (URI (settings environ args)) = inr e
  | RegisterError _ => trace = []
  | ServeError e =>
      ListenAndServe h (Listen (settings environ args)) = Some e /\
      In (Listening (Listen (settings environ args))) trace
  end.
Proof.
  unfold App_Main.
  destruct (App_Main_flags environ args app0) as [app rest|code|] eqn:Hflags;
    try discriminate.
  apply configured_settings in Hflags. subst app.
  unfold App_Main_serve, NewULSExporter.
  destruct (url_Parse_text h (URI (settings environ args))) as [u|e] eqn:Hu.
  2:{ intros [= <- <-]. split; reflexivity. }
  destruct (prometheus.Register (DefaultRegisterer h) (Describe (mkExporter u)))
    as [r [e|]] eqn:Hr.
  { intros [= <- <-]. reflexivity. }
  destruct (pattern_ok h (Path (settings environ args))); [|discriminate].
  destruct (ListenAndServe h (Listen (settings environ args))) as [e|] eqn:Hs;
    [|discriminate].
  intros [= <- <-]. split; [reflexivity|]. simpl. right. right. left. reflexivity.
Qed.

Lemma Main_error_effects_witness :
  App_Main (mkHost (fun s => inr (ExternalError "missing protocol scheme")) empty_registry
              (fun _ => true) (fun _ => None))
    environ0 args0 (mkApp EmptyString EmptyString EmptyString)
  = (Returns (ExporterError (ExternalError "missing protocol scheme")), []).
Proof.
  pose proof (Main_error_effects
                (mkHost (fun s => inr (ExternalError "missing protocol scheme"))
                   empty_registry (fun _ => true) (fun _ => None))
                environ0 args0 (mkApp EmptyString EmptyString EmptyString)
                (ExporterError (ExternalError "missing protocol scheme")) [] eq_refl) as [_ _].
  vm_compute. reflexivity.
Defined.

(** ** The command line *)

Lemma Parse_positional (formal : gmap string app_ptr) s more :
  flag.flag_text s = None ->
  forall k args app app',
    (List.length args <= k)%nat ->
    flag.Parse app_write formal args app = inl (app', []) ->
    flag.Parse app_write formal (args ++ s :: more) app = inl (app', s :: more).
Proof.
  intros Hs. induction k as [|k IH]; intros args app app' Hlen.
  - destruct args; [|simpl in Hlen; lia]. simpl. rewrite Hs. now intros [= ->].
  - destruct args as [|a args]; [simpl; rewrite Hs; now intros [= ->]|].
    simpl in Hlen. simpl.
    destruct (flag.flag_text a) as [[text|]|]; [|now intros [= -> ->]|discriminate].
    destruct (flag.bad_syntax text); [discriminate|].
    destruct (flag.split_name text) as [n value].
    destruct (formal !! n) as [q|]; [|destruct (_ || _); discriminate].
    destruct value as [v|].
    + intros H. apply IH; [lia|exact H].
    + destruct args as [|v args]; [discriminate|].
      intros H. simpl. apply IH; [simpl in Hlen; lia|exact H].
Qed.

(** X13.  An argument that is not a flag ends the reading of the command
    line: when the arguments before it are read to their end, the settings
    are those of these arguments, and the argument and everything after it,
    flags included, are left over. *)
Theorem Main_flags_stop_at_positional environ args s more app0 app :
  App_Main_flags environ args app0 = Configured app [] ->
  flag.flag_text s = None ->
  App_Main_flags environ (args ++ s :: more) app0 = Configured app (s :: more).
Proof.
  rewrite !App_Main_flags_unfold. intros H Hs.
  destruct (flag.Parse app_write CommandLine args _) as [[app' rest]|[|msg]] eqn:HP;
    try discriminate.
  injection H as -> ->.
  now rewrite (Parse_positional CommandLine s more Hs (List.length args) args _ app
                 (Nat.le_refl _) HP).
Qed.

Lemma Main_flags_stop_at_positional_witness :
  App_Main_flags ∅ (["-path=/m"] ++ "serve" :: ["-listen=:1"])
    (mkApp EmptyString EmptyString EmptyString)
  = Configured (mkApp ":9101" "/m" "http://localhost:8080") ("serve" :: ["-listen=:1"]).
Proof.
  apply (Main_flags_stop_at_positional ∅ ["-path=/m"] "serve" ["-listen=:1"]
           (mkApp EmptyString EmptyString EmptyString)
           (mkApp ":9101" "/m" "http://localhost:8080")).
  - vm_compute. reflexivity.
  - reflexivity.
Defined.

Lemma Parse_ErrHelp (formal : gmap string app_ptr) :
  forall k args app,
    (List.length args <= k)%nat ->
    flag.Parse app_write formal args app = inr flag.ErrHelp ->
    help_asked args.
Proof.
  induction k as [|k IH]; intros args app Hlen.
  - destruct args; [discriminate|simpl in Hlen; lia].
  - destruct args as [|a args]; [discriminate|].
    simpl in Hlen. simpl.
    destruct (flag.flag_text a) as [[text|]|] eqn:Ha; try discriminate.
    destruct (flag.bad_syntax text); [discriminate|].
    destruct (flag.split_name text) as [n value] eqn:Hn.
    assert (Hmore : forall rest, help_asked rest -> In a (a :: args) ->
                                 (forall x, In x rest -> In x (a :: args)) ->
                                 help_asked (a :: args)).
    { intros rest (s & t & Hin & Ht & Hh) _ Hsub. exists s, t. auto. }
    destruct (formal !! n) as [q|].
    + destruct value as [v|].
      * intros H. apply IH in H; [|lia].
        apply (Hmore args H); [now left|]. intros x Hx. now right.
      * destruct args as [|v args]; [discriminate|].
        intros H. apply IH in H; [|simpl in Hlen; lia].
        apply (Hmore args H); [now left|]. intros x Hx. right. now right.
    + destruct (String.eqb_spec n "help") as [->|_]; simpl.
      * intros _. exists a, text. rewrite Hn. split; [now left|]. split; [exact Ha|]. now left.
      * destruct (String.eqb_spec n "h") as [->|_]; [|discriminate].
        intros _. exists a, text. rewrite Hn. split; [now left|]. split; [exact Ha|]. now right.
Qed.

(** X14.  The process ends with status 0 only when the command line asks for
    help; every other end is status 1 (an error returned by [Main]) or
    status 2 (a command line in error, or a panic), and while the process
    does not end it is listening. *)
Theorem main_exit_status h environ args :
  match fst (main h environ args) with
  | Some code => (code = 0%Z /\ help_asked args) \/ code = 1%Z \/ code = 2%Z
  | None => exists addr, In (Listening addr) (snd (main h environ args))
  end.
Proof.
  unfold main, App_Main. rewrite App_Main_flags_unfold.
  destruct (flag.Parse app_write CommandLine args _) as [[app rest]|[|msg]] eqn:HP.
  - unfold App_Main_serve.
    destruct (NewULSExporter h (URI app)) as [exporter|err]; simpl; [|auto].
    destruct (prometheus.Register _ _) as [r [err|]]; simpl; [auto|].
    destruct (pattern_ok h (Path app)); simpl; [|auto].
    destruct (ListenAndServe h (Listen app)); simpl; [auto|].
    exists (Listen app). right. right. left. reflexivity.
  - simpl. left. split; [reflexivity|].
    exact (Parse_ErrHelp CommandLine (List.length args) args _ (Nat.le_refl _) HP).
  - simpl. auto.
Qed.

(** ** A record of the contract *)

(** X15.  A record of the upstream contract (an object whose members are
    among the seven fields, each with a value of its kind: an integer, a
    UUID in a string, timestamps in the layout, a boolean, an object of
    strings, an array of strings) decodes into a lease without any error,
    in whatever order the members come and however often they are given. *)
Theorem contract_record_decodes j : wire_lease j -> lease_record j.
Proof.
  intros (members & -> & Hm). unfold lease_record, store_lease, store_struct.
  apply lease_loop_wire. exact Hm.
Qed.

Lemma contract_record_decodes_witness :
  lease_record
    (json.Object [("isRevoked", "true", json.Bool true);
                  ("floatingLeaseId", "7", json.Number "7");
                  ("isRevoked", "false", json.Bool false);
                  ("createdTimeUtc", created_text, json.Str "2021-03-04T05:06:07.123456Z")]).
Proof.
  apply contract_record_decodes. eexists. split; [reflexivity|].
  repeat (constructor; [wire_member|]). constructor.
Defined.
